(** * NanoClaw agent runner: a shallow embedding of the orchestrator
    ([container/agent-runner/src/index.ts]), the two drivers
    ([claude-driver.ts], [opencode-driver.ts]) and the message feed, with
    proofs of their documented behaviour. *)

From Stdlib Require Import String Ascii List Bool ZArith Lia.
Import ListNotations.

Local Open Scope string_scope.
Local Open Scope list_scope.

(** ** Strings and JavaScript idioms *)

Definition nl : string := String (Ascii.ascii_of_nat 10) EmptyString.

(** [Array.prototype.join]. *)
Fixpoint join (sep : string) (l : list string) : string :=
  match l with
  | [] => EmptyString
  | [x] => x
  | x :: xs => (x ++ sep ++ join sep xs)%string
  end.

(** Truthiness of an optional string ([undefined] and [""] are falsy). *)
Definition truthy (o : option string) : bool :=
  match o with
  | Some s => negb (String.eqb s EmptyString)
  | None => false
  end.

(** [s || null] for a string [s]. *)
Definition or_null (s : string) : option string :=
  if String.eqb s EmptyString then None else Some s.

(** ** Contract types ([driver.ts]) *)

Record ContainerInput := mkContainerInput {
  prompt : string;
  sessionId : option string;
  groupFolder : string;
  chatJid : string;
  isMain : bool;
  isScheduledTask : option bool;
  assistantName : option string;
  agentType : option string;
  secrets : list (string * string)
}.

Record QueryResult := mkQueryResult {
  newSessionId : option string;
  lastAssistantUuid : option string;
  closedDuringQuery : bool
}.

Inductive Status := Success | Error.

(** A record written by [writeOutput]. *)
Record Output := mkOutput {
  status : Status;
  result : option string;
  out_newSessionId : option string;
  error : option string
}.

(** ** The live-message channel *)

(** Modelled from the spec: [utils.ts] (the inbox directory, [drainIpcInput],
    [waitForIpcMessage], [shouldClose] and the sentinel path) is not part of
    the sources.  Following §3, §4.1 and §6 of the spec, the inbox is an
    order-preserving mailbox of message texts (delivery order), next to a
    single sentinel marker whose presence means "shut down".  Besides the
    inbox the file system records whether the transient initialization
    document [/tmp/input.json] is on disk. *)
Record FS := mkFS {
  tmp_input : bool;
  inbox : list string;
  sentinel : bool
}.

Definition set_inbox (fs : FS) (l : list string) : FS :=
  mkFS (tmp_input fs) l (sentinel fs).
Definition set_sentinel (fs : FS) (b : bool) : FS :=
  mkFS (tmp_input fs) (inbox fs) b.
Definition set_tmp_input (fs : FS) (b : bool) : FS :=
  mkFS b (inbox fs) (sentinel fs).

(** A write by the external collaborator (the host). *)
Inductive FsWrite := WMessage (m : string) | WSentinel.

Definition apply_write (fs : FS) (w : FsWrite) : FS :=
  match w with
  | WMessage m => set_inbox fs (inbox fs ++ [m])
  | WSentinel => set_sentinel fs true
  end.

(** Modelled from the spec: [drainPending] "reads and removes all
    currently-present message files in delivery order; never blocks". *)
Definition drainIpcInput (fs : FS) : list string * FS :=
  (inbox fs, set_inbox fs []).

(** Modelled from the spec: [isTerminateRequested], the non-blocking
    sentinel check; the sentinel is consumed when seen (index.ts logs
    "Close sentinel consumed during query"). *)
Definition shouldClose (fs : FS) : bool * FS :=
  if sentinel fs then (true, set_sentinel fs false) else (false, fs).

(** Modelled from the spec: [waitForNext] polls until a message file
    exists (the earliest is removed and returned, the rest left) or the
    sentinel exists (terminate signal, [Some None]; the sentinel is then
    consumed), draining before checking the sentinel (§9).  The host's
    writes while it waits are [ws]; [None] is a wait that never ends. *)
Fixpoint waitForIpcMessage (fs : FS) (ws : list FsWrite)
  : FS * option (option string) :=
  match inbox fs with
  | m :: rest => (set_inbox fs rest, Some (Some m))
  | [] =>
      if sentinel fs then (set_sentinel fs false, Some None)
      else match ws with
           | [] => (fs, None)
           | w :: ws' => waitForIpcMessage (apply_write fs w) ws'
           end
  end.

(** ** The query loop ([main], index.ts lines 77-122) *)

(** What the orchestrator does, in order. *)
Inductive Action :=
| ACall (p : string) (sid resumeAt : option string)  (* driver.run *)
| AWrite (o : Output)                                 (* writeOutput *)
| AReturned (q : QueryResult)                         (* run resolved *)
| AWait                                               (* waitForIpcMessage *)
| AExit (code : Z)                                    (* process.exit *)
| ADone.                                              (* loop left by break *)

(** How a driver invocation ends: resolved, rejected (caught at the loop
    boundary), or never within the modelled events. *)
Inductive Outcome :=
| Resolved (q : QueryResult)
| Rejected (msg : string)
| Pending.

Section QueryLoop.
Context {W : Type}.
(** [driver.run]: the records it writes and how it ends. *)
Variable run : W -> string -> option string -> option string
               -> W * list Output * Outcome.
(** [waitForIpcMessage]: [Some None] is [null], [None] never returns. *)
Variable wait : W -> W * option (option string).

Fixpoint query_loop (fuel : nat) (w : W) (p : string)
         (sid resumeAt : option string) : list Action :=
  match fuel with
  | O => []
  | S fuel' =>
      let '(w1, outs, oc) := run w p sid resumeAt in
      ACall p sid resumeAt :: map AWrite outs ++
      match oc with
      | Pending => []
      | Rejected m =>
          [AWrite (mkOutput Error None sid (Some m)); AExit 1%Z]
      | Resolved q =>
          let sid' := if truthy (newSessionId q) then newSessionId q else sid in
          let resumeAt' :=
            if truthy (lastAssistantUuid q) then lastAssistantUuid q else resumeAt in
          AReturned q ::
          if closedDuringQuery q then [ADone]
          else
            AWrite (mkOutput Success None sid' None) :: AWait ::
            let '(w2, nm) := wait w1 in
            match nm with
            | None => []
            | Some None => [ADone]
            | Some (Some m) => query_loop fuel' w2 m sid' resumeAt'
            end
      end
  end.
End QueryLoop.

(** ** [MessageStream] (claude-driver.ts lines 25-55) *)

Record SDKUserMessage := mkSDKUserMessage {
  content : string;
  session_id : string
}.

(** Where the async generator [[Symbol.asyncIterator]] stands: ready to
    run its loop, suspended on [await new Promise(...)] (with the promise
    resolved or not), or returned. *)
Inductive GenState := GRun | GAwait (resolved : bool) | GDone.

Record MessageStream := mkStream {
  queue : list SDKUserMessage;
  waiting : bool;   (* [this.waiting !== null] *)
  done : bool;
  gen : GenState
}.

Definition stream_init : MessageStream := mkStream [] false false GRun.

(** [this.waiting?.()]: resolve the pending promise, if any. *)
Definition wake (s : MessageStream) : MessageStream :=
  if waiting s then
    mkStream (queue s) (waiting s) (done s)
             (match gen s with GAwait _ => GAwait true | g => g end)
  else s.

Definition push (text : string) (s : MessageStream) : MessageStream :=
  wake (mkStream (queue s ++ [mkSDKUserMessage text EmptyString])
                 (waiting s) (done s) (gen s)).

Definition end_ (s : MessageStream) : MessageStream :=
  wake (mkStream (queue s) (waiting s) true (gen s)).

Inductive GenResult := Yielded (m : SDKUserMessage) | Returned | Blocked.

(** The generator body from the top of [while (true)]. *)
Definition gen_body (s : MessageStream) : GenResult * MessageStream :=
  match queue s with
  | m :: q => (Yielded m, mkStream q (waiting s) (done s) GRun)
  | [] =>
      if done s then (Returned, mkStream [] (waiting s) (done s) GDone)
      else (Blocked, mkStream [] true (done s) (GAwait false))
  end.

(** The consumer's [next()]: a blocked call completes once the promise it
    waits on is resolved; the generator then sets [this.waiting = null]. *)
Definition gen_next (s : MessageStream) : GenResult * MessageStream :=
  match gen s with
  | GDone => (Returned, s)
  | GAwait false => (Blocked, s)
  | GAwait true => gen_body (mkStream (queue s) false (done s) GRun)
  | GRun => gen_body s
  end.

(** ** [ClaudeDriver.run] (claude-driver.ts lines 64-182) *)

(** The messages the SDK's [query] yields, as far as the driver looks. *)
Inductive SdkMessage :=
| SdkSystemInit (sid : string)
| SdkSystemOther
| SdkAssistant (uuid : option string)
| SdkResult (text : option string)
| SdkOther.

(** What can happen while the invocation is in flight: the 500 ms timer
    fires, the host writes to the inbox, the SDK pulls from the feed,
    the SDK yields a message, or the SDK's loop ends. *)
Inductive ClaudeEvent :=
| CTimer
| CHost (w : FsWrite)
| CSdkPull
| CSdk (m : SdkMessage)
| CSdkEnd.

Record CState := mkCState {
  c_fs : FS;
  c_stream : MessageStream;
  c_polling : bool;        (* ipcPolling *)
  c_closed : bool;         (* closedDuringQuery *)
  c_timer : bool;          (* a pollIpcDuringQuery timeout is pending *)
  c_newSessionId : option string;
  c_lastAssistantUuid : option string;
  c_outs : list Output
}.

(** [pollIpcDuringQuery], run when its timeout fires. *)
Definition poll_ipc (st : CState) : CState :=
  if negb (c_polling st) then st
  else
    let '(close, fs1) := shouldClose (c_fs st) in
    if close then
      mkCState fs1 (end_ (c_stream st)) false true (c_timer st)
               (c_newSessionId st) (c_lastAssistantUuid st) (c_outs st)
    else
      let '(msgs, fs2) := drainIpcInput fs1 in
      mkCState fs2 (fold_left (fun s t => push t s) msgs (c_stream st))
               (c_polling st) (c_closed st) true
               (c_newSessionId st) (c_lastAssistantUuid st) (c_outs st).

(** The body of [for await (const message of query(...))]. *)
Definition on_sdk_message (st : CState) (m : SdkMessage) : CState :=
  match m with
  | SdkAssistant (Some u) =>
      mkCState (c_fs st) (c_stream st) (c_polling st) (c_closed st) (c_timer st)
               (c_newSessionId st) (Some u) (c_outs st)
  | SdkSystemInit sid =>
      mkCState (c_fs st) (c_stream st) (c_polling st) (c_closed st) (c_timer st)
               (Some sid) (c_lastAssistantUuid st) (c_outs st)
  | SdkResult t =>
      let text := match t with Some r => or_null r | None => None end in
      mkCState (c_fs st) (c_stream st) (c_polling st) (c_closed st) (c_timer st)
               (c_newSessionId st) (c_lastAssistantUuid st)
               (c_outs st ++ [mkOutput Success text (c_newSessionId st) None])
  | _ => st
  end.

Definition claude_event (st : CState) (e : ClaudeEvent) : CState :=
  match e with
  | CTimer =>
      if c_timer st
      then poll_ipc (mkCState (c_fs st) (c_stream st) (c_polling st) (c_closed st)
                              false (c_newSessionId st) (c_lastAssistantUuid st)
                              (c_outs st))
      else st
  | CHost w =>
      mkCState (apply_write (c_fs st) w) (c_stream st) (c_polling st) (c_closed st)
               (c_timer st) (c_newSessionId st) (c_lastAssistantUuid st) (c_outs st)
  | CSdkPull =>
      mkCState (c_fs st) (snd (gen_next (c_stream st))) (c_polling st) (c_closed st)
               (c_timer st) (c_newSessionId st) (c_lastAssistantUuid st) (c_outs st)
  | CSdk m => on_sdk_message st m
  | CSdkEnd => st
  end.

(** Runs the events up to the end of the SDK's loop; then [ipcPolling = false]
    and the result is returned.  [None]: the loop did not end. *)
Fixpoint claude_loop (st : CState) (evs : list ClaudeEvent)
  : CState * option QueryResult :=
  match evs with
  | [] => (st, None)
  | CSdkEnd :: _ =>
      (mkCState (c_fs st) (c_stream st) false (c_closed st) (c_timer st)
                (c_newSessionId st) (c_lastAssistantUuid st) (c_outs st),
       Some (mkQueryResult (c_newSessionId st) (c_lastAssistantUuid st)
                           (c_closed st)))
  | e :: evs' => claude_loop (claude_event st e) evs'
  end.

Definition claude_start (fs : FS) (p : string) : CState :=
  mkCState fs (push p stream_init) true false true None None [].

(** [ClaudeDriver.run]: the records written and the result returned.  An
    exception thrown out of the [for await] loop, which rejects the promise,
    is not among the events of this model. *)
Definition claude_run (fs : FS) (p : string) (sid resumeAt : option string)
           (evs : list ClaudeEvent) : FS * list Output * Outcome :=
  let '(st, r) := claude_loop (claude_start fs p) evs in
  (c_fs st, c_outs st, match r with Some q => Resolved q | None => Pending end).

(** ** [OpenCodeDriver.run] (opencode-driver.ts) *)

(** What the spawned process reports: data on stdout or stderr, the
    ['close'] event with its exit code ([None] is [null], killed by a
    signal), or the ['error'] event (spawn failure). *)
Inductive ProcEvent :=
| PStdout (data : string)
| PStderr (data : string)
| PClose (code : option Z)
| PError (msg : string).

(** The arguments handed to [spawn('opencode', args, ...)]. *)
Definition opencode_args (mcpServerPath p : string) (sid : option string)
  : list string :=
  ["run"; p] ++
  (if truthy sid then match sid with Some s => ["--session"; s] | None => [] end
   else []) ++
  ["--mcp"; ("node " ++ mcpServerPath)%string].

Definition code_is_zero (code : option Z) : bool :=
  match code with Some c => Z.eqb c 0 | None => false end.

(** The handlers run in event order; the first of ['close'] / ['error']
    resolves the promise, and these are the records written up to that
    point.  The handlers keep running for later events (Node emits
    ['close'] after an ['error'] raised by a failed spawn); what they write
    then is listed by [opencode_handlers] below.  [None]: the process never
    reported an end. *)
Fixpoint opencode_loop (sid : option string) (stdout stderr : string)
         (evs : list ProcEvent) : list Output * option QueryResult :=
  match evs with
  | [] => ([], None)
  | PStdout d :: evs' => opencode_loop sid (stdout ++ d)%string stderr evs'
  | PStderr d :: evs' => opencode_loop sid stdout (stderr ++ d)%string evs'
  | PClose code :: _ =>
      let newSessionId := sid in
      ([mkOutput (if code_is_zero code then Success else Error)
                 (or_null stdout) newSessionId
                 (if code_is_zero code then None else Some stderr)],
       Some (mkQueryResult newSessionId None false))
  | PError msg :: _ =>
      ([mkOutput Error None None (Some msg)],
       Some (mkQueryResult None None false))
  end.

Definition opencode_run (p : string) (sid resumeAt : option string)
           (evs : list ProcEvent) : list Output * Outcome :=
  let '(outs, r) := opencode_loop sid EmptyString EmptyString evs in
  (outs, match r with Some q => Resolved q | None => Pending end).


(** How [spawn('opencode', ...)] behaves: it throws synchronously (invalid
    arguments such as a NUL byte in the prompt, or [E2BIG]), or it returns
    a process that then reports [evs] (a missing executable is reported
    asynchronously, by the ['error'] event). *)
Inductive Spawn := SpawnThrows (msg : string) | Spawned (evs : list ProcEvent).

(** [OpenCodeDriver.run]: [spawn] runs inside the promise executor, before
    any handler is attached, so a synchronous throw rejects the promise
    without a record. *)
Definition opencode_invoke (p : string) (sid resumeAt : option string)
           (sp : Spawn) : list Output * Outcome :=
  match sp with
  | SpawnThrows msg => ([], Rejected msg)
  | Spawned evs => opencode_run p sid resumeAt evs
  end.

(** ** The world the orchestrator runs in *)

Inductive AgentKind := Claude | OpenCode.

(** The file system, and per invocation what the backend does
    ([w_claude] or [w_opencode], one script per invocation) and what the
    host writes while the orchestrator waits ([w_waits]).  The records an
    OpenCode handler writes after its invocation resolved are written
    asynchronously to the orchestrator's next steps; the trace holds the
    records written up to the resolution. *)
Record World := mkWorld {
  w_fs : FS;
  w_claude : list (list ClaudeEvent);
  w_opencode : list Spawn;
  w_waits : list (list FsWrite)
}.

Definition driver_run (k : AgentKind) (w : World) (p : string)
           (sid resumeAt : option string) : World * list Output * Outcome :=
  match k with
  | Claude =>
      let evs := hd [] (w_claude w) in
      let '(fs', outs, oc) := claude_run (w_fs w) p sid resumeAt evs in
      (mkWorld fs' (tl (w_claude w)) (w_opencode w) (w_waits w), outs, oc)
  | OpenCode =>
      let sp := hd (Spawned []) (w_opencode w) in
      let '(outs, oc) := opencode_invoke p sid resumeAt sp in
      (mkWorld (w_fs w) (w_claude w) (tl (w_opencode w)) (w_waits w), outs, oc)
  end.

Definition world_wait (w : World) : World * option (option string) :=
  let '(fs', r) := waitForIpcMessage (w_fs w) (hd [] (w_waits w)) in
  (mkWorld fs' (w_claude w) (w_opencode w) (tl (w_waits w)), r).

(** ** Startup ([main], index.ts lines 22-75) *)

Inductive ParseResult := ParseOk (ci : ContainerInput) | ParseErr (msg : string).

Definition select_driver (ci : ContainerInput) : AgentKind :=
  let agentType := if truthy (agentType ci) then agentType ci else Some "claude"%string in
  match agentType with
  | Some a => if String.eqb a "opencode" then OpenCode else Claude
  | None => Claude
  end.

Definition SCHEDULED_BANNER : string :=
  "[SCHEDULED TASK - The following message was sent automatically and is not coming directly from the user or group.]".

(** Lines 66-75: the first prompt. *)
Definition initial_prompt (ci : ContainerInput) (fs : FS) : string * FS :=
  let p0 := prompt ci in
  let p1 := match isScheduledTask ci with
            | Some true => (SCHEDULED_BANNER ++ nl ++ nl ++ p0)%string
            | _ => p0
            end in
  let '(pending, fs') := drainIpcInput fs in
  match pending with
  | [] => (p1, fs')
  | _ => ((p1 ++ nl ++ join nl pending)%string, fs')
  end.

(** Where startup ends: the process exits after reporting a parse error,
    or the loop is entered with a driver, a first prompt and a session. *)
Inductive Startup :=
| StartFailed (fs : FS) (trace : list Action)
| StartLoop (fs : FS) (k : AgentKind) (p : string) (sid : option string).

(** [JSON.parse] is the parameter [parse]. *)
Definition main_startup (parse : string -> ParseResult) (stdin : string)
           (fs0 : FS) : Startup :=
  match parse stdin with
  | ParseErr m =>
      StartFailed fs0
        [AWrite (mkOutput Error None None
                   (Some ("Failed to parse input: " ++ m)%string));
         AExit 1%Z]
  | ParseOk ci =>
      (* fs.unlinkSync('/tmp/input.json') *)
      let fs1 := set_tmp_input fs0 false in
      (* fs.unlinkSync(IPC_INPUT_CLOSE_SENTINEL) *)
      let fs2 := set_sentinel fs1 false in
      let k := select_driver ci in
      let '(p, fs3) := initial_prompt ci fs2 in
      StartLoop fs3 k p (sessionId ci)
  end.

Definition main (fuel : nat) (parse : string -> ParseResult) (stdin : string)
           (w0 : World) : list Action :=
  match main_startup parse stdin (w_fs w0) with
  | StartFailed _ t => t
  | StartLoop fs k p sid =>
      query_loop (driver_run k) world_wait fuel
                 (mkWorld fs (w_claude w0) (w_opencode w0) (w_waits w0)) p sid None
  end.

(** ** The outbound-command sanitation hook
    ([ClaudeDriver.createSanitizeBashHook], claude-driver.ts lines 217-235) *)

(** A tool input object, as an association list with unique keys. *)
Definition ToolInput := list (string * string).

Fixpoint lookup (k : string) (o : ToolInput) : option string :=
  match o with
  | [] => None
  | (k', v) :: o' => if String.eqb k k' then Some v else lookup k o'
  end.

(** [{ ...o, [k]: v }]: an existing key keeps its place, a new one goes last. *)
Fixpoint set_field (k v : string) (o : ToolInput) : ToolInput :=
  match o with
  | [] => [(k, v)]
  | (k', v') :: o' =>
      if String.eqb k k' then (k, v) :: o' else (k', v') :: set_field k v o'
  end.

Definition SECRET_ENV_VARS : list string :=
  ["ANTHROPIC_API_KEY"; "CLAUDE_CODE_OAUTH_TOKEN"].

Record HookSpecificOutput := mkHookSpecificOutput {
  hookEventName : string;
  updatedInput : ToolInput
}.

(** [None] is the empty answer [{}]. *)
Definition sanitizeBashHook (tool_input : ToolInput)
  : option HookSpecificOutput :=
  let command := lookup "command" tool_input in
  if negb (truthy command) then None
  else
    let c := match command with Some c => c | None => EmptyString end in
    let unsetPrefix := ("unset " ++ join " " SECRET_ENV_VARS ++ " 2>/dev/null; ")%string in
    Some (mkHookSpecificOutput "PreToolUse"
            (set_field "command" (unsetPrefix ++ c)%string tool_input)).

(** ** Driving a [MessageStream]: the producer's [push]/[end] calls and
    the consumer's [next()] calls, interleaved. *)

Inductive StreamOp := OPush (t : string) | OEnd | OPull.

Definition stream_op (s : MessageStream) (op : StreamOp)
  : option SDKUserMessage * MessageStream :=
  match op with
  | OPush t => (None, push t s)
  | OEnd => (None, end_ s)
  | OPull =>
      let '(r, s') := gen_next s in
      (match r with Yielded m => Some m | _ => None end, s')
  end.

(** The messages the consumer received, and the final stream. *)
Fixpoint run_ops (s : MessageStream) (ops : list StreamOp)
  : list SDKUserMessage * MessageStream :=
  match ops with
  | [] => ([], s)
  | op :: ops' =>
      let '(y, s1) := stream_op s op in
      let '(ys, s2) := run_ops s1 ops' in
      (match y with Some m => m :: ys | None => ys end, s2)
  end.

(** Further [next()] calls by the consumer. *)
Fixpoint pull_n (n : nat) (s : MessageStream) : list GenResult * MessageStream :=
  match n with
  | O => ([], s)
  | S n' =>
      let '(r, s1) := gen_next s in
      let '(rs, s2) := pull_n n' s1 in
      (r :: rs, s2)
  end.

Fixpoint pushed (ops : list StreamOp) : list string :=
  match ops with
  | [] => []
  | OPush t :: ops' => t :: pushed ops'
  | _ :: ops' => pushed ops'
  end.

Definition ended (ops : list StreamOp) : bool :=
  existsb (fun op => match op with OEnd => true | _ => false end) ops.

(** The single producer pushes, then may end the stream. *)
Fixpoint producer_ok (ended : bool) (ops : list StreamOp) : bool :=
  match ops with
  | [] => true
  | OPush _ :: ops' => negb ended && producer_ok ended ops'
  | OEnd :: ops' => producer_ok true ops'
  | OPull :: ops' => producer_ok ended ops'
  end.

(** ** Reading a loop trace *)

(** The driver calls' session arguments and the results they returned. *)
Inductive CallEvent := CallE (sid : option string) | RetE (q : QueryResult).

Fixpoint call_events (t : list Action) : list CallEvent :=
  match t with
  | [] => []
  | ACall _ sid _ :: t' => CallE sid :: call_events t'
  | AReturned q :: t' => RetE q :: call_events t'
  | _ :: t' => call_events t'
  end.

(** The data the external process wrote before its end. *)
Fixpoint captured_stdout (evs : list ProcEvent) : string :=
  match evs with
  | [] => EmptyString
  | PStdout d :: evs' => (d ++ captured_stdout evs')%string
  | _ :: evs' => captured_stdout evs'
  end.

Fixpoint captured_stderr (evs : list ProcEvent) : string :=
  match evs with
  | [] => EmptyString
  | PStderr d :: evs' => (d ++ captured_stderr evs')%string
  | _ :: evs' => captured_stderr evs'
  end.

Definition is_data (e : ProcEvent) : bool :=
  match e with PStdout _ | PStderr _ => true | _ => false end.

(** ** Characters *)

Definition is_az09 (c : ascii) : bool :=
  let n := nat_of_ascii c in
  ((Nat.leb 97 n) && (Nat.leb n 122)) || ((Nat.leb 48 n) && (Nat.leb n 57)).

(** [String.prototype.toLowerCase] on ASCII letters; other characters are
    kept (none of them becomes one of [a-z0-9] in JavaScript either, apart
    from U+0130 and U+212A, which a byte string cannot hold). *)
Definition to_lower (c : ascii) : ascii :=
  let n := nat_of_ascii c in
  if (Nat.leb 65 n) && (Nat.leb n 90) then ascii_of_nat (n + 32) else c.

Definition dash : ascii := "-"%char.

(** ** [sanitizeFilename] (claude-driver.ts lines 250-252) *)

(** [.replace(/[^a-z0-9]+/g, '-')]: each maximal run of other characters
    becomes one dash; [in_run] says the previous character was in a run. *)
Fixpoint replace_runs (in_run : bool) (s : list ascii) : list ascii :=
  match s with
  | [] => []
  | c :: s' =>
      if is_az09 c then c :: replace_runs false s'
      else if in_run then replace_runs true s'
      else dash :: replace_runs true s'
  end.

Fixpoint drop_dashes (s : list ascii) : list ascii :=
  match s with
  | c :: s' => if Ascii.eqb c dash then drop_dashes s' else s
  | [] => []
  end.

(** Drops the dashes at the end. *)
Fixpoint drop_trailing_dashes (s : list ascii) : list ascii :=
  match s with
  | [] => []
  | c :: s' =>
      match drop_trailing_dashes s' with
      | [] => if Ascii.eqb c dash then [] else [c]
      | r => c :: r
      end
  end.

(** [.replace(/^-+|-+$/g, '')]. *)
Definition trim_dashes (s : list ascii) : list ascii :=
  drop_trailing_dashes (drop_dashes s).

Definition sanitizeFilename (summary : string) : string :=
  string_of_list_ascii
    (firstn 50 (trim_dashes (replace_runs false
       (map to_lower (list_ascii_of_string summary))))).

(** ** [generateFallbackName] (claude-driver.ts lines 254-257) *)

(** [Number.prototype.toString()] for a natural number. *)
Fixpoint digits_aux (fuel n : nat) (acc : string) : string :=
  match fuel with
  | O => acc
  | S f =>
      let acc' := String (ascii_of_nat (48 + n mod 10)) acc in
      if Nat.ltb n 10 then acc' else digits_aux f (n / 10) acc'
  end.

Definition number_to_string (n : nat) : string := digits_aux (S n) n EmptyString.

(** [.padStart(2, '0')]. *)
Definition pad2 (s : string) : string :=
  (string_of_list_ascii (repeat "0"%char (2 - String.length s)) ++ s)%string.

(** [time.getHours()] and [time.getMinutes()] are [hours] and [minutes]. *)
Definition generateFallbackName (hours minutes : nat) : string :=
  ("conversation-" ++ pad2 (number_to_string hours)
                   ++ pad2 (number_to_string minutes))%string.

(** ** [parseTranscript] (claude-driver.ts lines 259-275) *)

(** [content.split('\n')]. *)
Fixpoint split_nl (s : string) : list string :=
  match s with
  | EmptyString => [EmptyString]
  | String c s' =>
      let r := split_nl s' in
      if Ascii.eqb c (Ascii.ascii_of_nat 10) then EmptyString :: r
      else match r with
           | x :: rs => String c x :: rs
           | [] => [String c EmptyString]
           end
  end.

(** [!line.trim()]: the line is empty or white space only (ASCII white
    space: tab, line feed, vertical tab, form feed, carriage return, space). *)
Definition is_ws (c : ascii) : bool :=
  let n := nat_of_ascii c in ((Nat.leb 9 n) && (Nat.leb n 13)) || (Nat.eqb n 32).

Definition is_blank (line : string) : bool :=
  forallb is_ws (list_ascii_of_string line).

(** One element of an array [message.content]. *)
Record Part := mkPart { part_type : option string; part_text : option string }.

(** [message.content] after [JSON.parse]: a string, an array of objects, or
    any other value (on which [.map] / [.filter] throw or which is falsy). *)
Inductive Content := CStr (s : string) | CParts (ps : list Part) | COther.

(** A parsed transcript line: its [type] and its [message?.content]. *)
Record Entry := mkEntry { e_type : option string; e_content : option Content }.

Inductive Role := RUser | RAssistant.

Record TMsg := mkTMsg { role : Role; tcontent : string }.

Definition part_text_or_empty (p : Part) : string :=
  match part_text p with Some t => t | None => EmptyString end.

Definition is_text_part (p : Part) : bool :=
  match part_type p with Some t => String.eqb t "text" | None => false end.

(** The body of the [try]: [None] when nothing is pushed, whether by the
    code's tests or because an exception is caught. *)
Definition entry_msg (e : Entry) : option TMsg :=
  match e_type e, e_content e with
  | Some ty, Some c =>
      if String.eqb ty "user" then
        match c with
        | CStr s => if String.eqb s EmptyString then None else Some (mkTMsg RUser s)
        | CParts ps =>
            let text := String.concat EmptyString (map part_text_or_empty ps) in
            if String.eqb text EmptyString then None else Some (mkTMsg RUser text)
        | COther => None
        end
      else if String.eqb ty "assistant" then
        match c with
        | CParts ps =>
            let text := String.concat EmptyString
                          (map part_text_or_empty (filter is_text_part ps)) in
            if String.eqb text EmptyString then None else Some (mkTMsg RAssistant text)
        | _ => None
        end
      else None
  | _, _ => None
  end.

Section Transcript.
(** [JSON.parse] of one line: [None] when it throws or gives [null]. *)
Variable parse_line : string -> option Entry.

Definition parse_one (line : string) : list TMsg :=
  if is_blank line then []
  else match parse_line line with
       | None => []
       | Some e => match entry_msg e with Some m => [m] | None => [] end
       end.

Definition parseTranscript (content : string) : list TMsg :=
  flat_map parse_one (split_nl content).
End Transcript.

(** ** [getSessionSummary] (claude-driver.ts lines 237-248) *)

Record SessionEntry := mkSessionEntry {
  se_sessionId : string;
  se_fullPath : string;
  se_summary : option string;
  se_firstPrompt : string
}.

(** [index_file]: the content of [sessions-index.json] next to the
    transcript ([None]: it does not exist); [parse_index]: [JSON.parse]
    and the read of [.entries] ([None] when either throws). *)
Definition getSessionSummary (parse_index : string -> option (list SessionEntry))
           (index_file : option string) (sessionId : string) : option string :=
  match index_file with
  | None => None
  | Some c =>
      match parse_index c with
      | None => None
      | Some entries =>
          match find (fun e => String.eqb (se_sessionId e) sessionId) entries with
          | Some e => if truthy (se_summary e) then se_summary e else None
          | None => None
          end
      end
  end.

(** ** [formatTranscriptMarkdown] (claude-driver.ts lines 277-286) *)

(** [content.length > 2000 ? content.slice(0, 2000) + '...' : content].
    A [string] here is a list of bytes, so lengths count bytes; the source
    counts UTF-16 code units, and the two agree on ASCII text only. *)
Definition truncate_turn (c : string) : string :=
  if Nat.ltb 2000 (String.length c) then (substring 0 2000 c ++ "...")%string else c.

(** [now.toLocaleString()] is [now]. *)
Definition formatTranscriptMarkdown (messages : list TMsg) (title : option string)
           (assistantName : option string) (now : string) : string :=
  let title' := if truthy title then match title with Some t => t | None => "" end
                else "Conversation" in
  let lines := [("# " ++ title')%string; ""; ("Archived: " ++ now)%string; ""; "---"; ""] in
  let sender m := match role m with
                  | RUser => "User"
                  | RAssistant => if truthy assistantName
                                  then match assistantName with Some a => a | None => "" end
                                  else "Assistant"
                  end in
  join nl (lines ++ flat_map (fun m => [("**" ++ sender m ++ "**: " ++ truncate_turn (tcontent m))%string; ""])
                             messages).

(** ** [createPreCompactHook] (claude-driver.ts lines 184-215) *)

Record PreCompactInput := mkPreCompactInput {
  transcript_path : option string;
  pc_session_id : string
}.

Definition conversationsDir : string := "/workspace/group/conversations".

(** [new Date().toISOString().split('T')[0]]. *)
Fixpoint before_T (s : string) : string :=
  match s with
  | EmptyString => EmptyString
  | String c s' => if Ascii.eqb c "T"%char then EmptyString else String c (before_T s')
  end.

(** The archive the hook writes: the file name inside [conversationsDir]
    and its content; [None] when it writes nothing.  [files] maps paths to
    contents; the clock gives [iso_now], [hours], [minutes] and [now]. *)
Definition preCompactHook (parse_line : string -> option Entry)
           (parse_index : string -> option (list SessionEntry))
           (assistantName : option string) (files : ToolInput)
           (index_file : option string) (iso_now : string) (hours minutes : nat)
           (now : string) (input : PreCompactInput) : option (string * string) :=
  match transcript_path input with
  | None => None
  | Some tp =>
      if negb (truthy (Some tp)) then None else
      match lookup tp files with
      | None => None
      | Some content =>
          let messages := parseTranscript parse_line content in
          match messages with
          | [] => None
          | _ =>
              let summary := getSessionSummary parse_index index_file (pc_session_id input) in
              let name := if truthy summary
                          then sanitizeFilename (match summary with Some s => s | None => "" end)
                          else generateFallbackName hours minutes in
              let date := before_T iso_now in
              let filename := (date ++ "-" ++ name ++ ".md")%string in
              Some (filename, formatTranscriptMarkdown messages summary assistantName now)
          end
      end
  end.

(** ** Environments (index.ts lines 40-44, opencode-driver.ts lines 29-36) *)

(** [{ ...process.env }] then [sdkEnv[key] = value] for each secret. *)
Definition build_sdkEnv (env : ToolInput) (secrets : list (string * string)) : ToolInput :=
  fold_left (fun e '(k, v) => set_field k v e) secrets env.

Definition opencode_env (ci : ContainerInput) (sdkEnv : ToolInput) : ToolInput :=
  set_field "NANOCLAW_IS_MAIN" (if isMain ci then "1" else "0")
    (set_field "NANOCLAW_GROUP_FOLDER" (groupFolder ci)
      (set_field "NANOCLAW_CHAT_JID" (chatJid ci) sdkEnv)).

(** ** Reading traces and event scripts *)

(** The driver calls' resume points and the results they returned. *)
Inductive ResumeEvent := RCall (resumeAt : option string) | RRet (q : QueryResult).

Fixpoint resume_events (t : list Action) : list ResumeEvent :=
  match t with
  | [] => []
  | ACall _ _ r :: t' => RCall r :: resume_events t'
  | AReturned q :: t' => RRet q :: resume_events t'
  | _ :: t' => resume_events t'
  end.

(** The [result] field of a result message, [textResult || null]. *)
Definition result_text (t : option string) : option string :=
  match t with Some r => or_null r | None => None end.

(** The result messages the SDK yields before its loop ends. *)
Fixpoint sdk_results (evs : list ClaudeEvent) : list (option string) :=
  match evs with
  | [] => []
  | CSdkEnd :: _ => []
  | CSdk (SdkResult t) :: evs' => t :: sdk_results evs'
  | _ :: evs' => sdk_results evs'
  end.

(** The session id of the last [system/init] message before the end. *)
Fixpoint last_init (acc : option string) (evs : list ClaudeEvent) : option string :=
  match evs with
  | [] => acc
  | CSdkEnd :: _ => acc
  | CSdk (SdkSystemInit s) :: evs' => last_init (Some s) evs'
  | _ :: evs' => last_init acc evs'
  end.

(** The uuid of the last assistant message carrying one before the end. *)
Fixpoint last_uuid (acc : option string) (evs : list ClaudeEvent) : option string :=
  match evs with
  | [] => acc
  | CSdkEnd :: _ => acc
  | CSdk (SdkAssistant (Some u)) :: evs' => last_uuid (Some u) evs'
  | _ :: evs' => last_uuid acc evs'
  end.

(** The character of a decimal digit. *)
Definition digit (n : nat) : ascii := ascii_of_nat (48 + n).

(** * Proofs *)

(** ** Strings *)

Lemma str_app_assoc : forall a b c : string,
  (a ++ (b ++ c))%string = ((a ++ b) ++ c)%string.
Proof. induction a; intros; simpl; [reflexivity | now rewrite IHa]. Qed.

Lemma str_app_nil_r : forall a : string, (a ++ EmptyString)%string = a.
Proof. induction a; simpl; [reflexivity | now rewrite IHa]. Qed.

Lemma str_app_nil_l : forall a : string, (EmptyString ++ a)%string = a.
Proof. reflexivity. Qed.

(** ** The external-process driver *)

Lemma opencode_loop_data : forall sid so se pre rest,
  forallb is_data pre = true ->
  opencode_loop sid so se (pre ++ rest) =
  opencode_loop sid (so ++ captured_stdout pre)%string
                    (se ++ captured_stderr pre)%string rest.
Proof.
  intros sid so se pre; revert so se.
  induction pre as [|e pre IH]; intros so se rest Hd; simpl.
  - now rewrite !str_app_nil_r.
  - destruct e; simpl in Hd; try discriminate.
    + rewrite IH by exact Hd. now rewrite str_app_assoc.
    + rewrite IH by exact Hd. now rewrite str_app_assoc.
Qed.

(** Claim C1 (amended): when the spawned process closes with a non-zero
    (or null) exit code, the one record the external-process driver
    writes before resolving has status [error], the whole captured
    standard error as error text, the captured standard output (or null
    when it is empty) as result text, and the session id passed in. *)
Theorem opencode_nonzero_exit_record :
  forall p sid resumeAt pre code post,
    forallb is_data pre = true ->
    code_is_zero code = false ->
    opencode_run p sid resumeAt (pre ++ PClose code :: post) =
    ([mkOutput Error (or_null (captured_stdout pre)) sid
               (Some (captured_stderr pre))],
     Resolved (mkQueryResult sid None false)).
Proof.
  intros p sid resumeAt pre code post Hd Hc.
  unfold opencode_run. rewrite opencode_loop_data by exact Hd.
  simpl. now rewrite Hc.
Qed.

Lemma opencode_nonzero_exit_record_witness :
  forallb is_data [PStdout "partial"; PStderr "boom"] = true /\
  code_is_zero (Some 1%Z) = false /\
  opencode_run "hi" (Some "s0") None
    ([PStdout "partial"; PStderr "boom"] ++ PClose (Some 1%Z) :: []) =
  ([mkOutput Error (or_null (captured_stdout [PStdout "partial"; PStderr "boom"]))
             (Some "s0") (Some (captured_stderr [PStdout "partial"; PStderr "boom"]))],
   Resolved (mkQueryResult (Some "s0") None false)).
Proof.
  split; [reflexivity | split; [reflexivity |]].
  apply opencode_nonzero_exit_record; reflexivity.
Defined.

(** Claim C1 (counterexample): a process that wrote to standard output
    and exits with code 1 yields an error record whose result text is
    that output, not null. *)
Lemma opencode_nonzero_exit_result_not_null :
  opencode_run "hi" None None
    [PStdout "partial answer"; PStderr "fatal"; PClose (Some 1%Z)] =
  ([mkOutput Error (Some "partial answer") None (Some "fatal")],
   Resolved (mkQueryResult None None false)) /\
  Some "partial answer" <> None.
Proof. split; [reflexivity | discriminate]. Qed.





(** ** Startup *)

(** Claim C7 (code defect): the temporary file [/tmp/input.json] is
    deleted only after [JSON.parse] succeeds; when parsing the document
    fails the process reports the error and exits with the file, and the
    secrets in it, still on disk. *)
Theorem main_parse_failure_keeps_input_file :
  main_startup (fun _ => ParseErr "Unexpected end of JSON input") "{"
               (mkFS true [] false) =
  StartFailed (mkFS true [] false)
    [AWrite (mkOutput Error None None
               (Some "Failed to parse input: Unexpected end of JSON input"));
     AExit 1%Z] /\
  tmp_input (mkFS true [] false) = true.
Proof. split; reflexivity. Qed.

(** ** The sanitation hook *)

Lemma lookup_set_field_same : forall k v o,
  lookup k (set_field k v o) = Some v.
Proof.
  intros k v o; induction o as [|[k' v'] o IH]; simpl.
  - now rewrite String.eqb_refl.
  - destruct (String.eqb k k') eqn:E; simpl.
    + now rewrite String.eqb_refl.
    + now rewrite E.
Qed.

Lemma lookup_set_field_other : forall k k2 v o,
  k2 <> k -> lookup k2 (set_field k v o) = lookup k2 o.
Proof.
  intros k k2 v o Hne; induction o as [|[k' v'] o IH]; simpl.
  - apply String.eqb_neq in Hne. now rewrite Hne.
  - destruct (String.eqb k k') eqn:E; simpl.
    + apply String.eqb_eq in E; subst k'.
      apply String.eqb_neq in Hne. now rewrite Hne.
    + now rewrite IH.
Qed.

(** Claim C8: for a shell-command tool input whose command is non-empty,
    the hook answers with an updated input whose command is
    [unset ANTHROPIC_API_KEY CLAUDE_CODE_OAUTH_TOKEN 2>/dev/null; ]
    followed by the original command text unchanged; every other field of
    the input is kept. *)
Theorem sanitize_bash_prefixes_unset :
  forall tool_input c,
    lookup "command" tool_input = Some c ->
    c <> EmptyString ->
    exists upd,
      sanitizeBashHook tool_input = Some (mkHookSpecificOutput "PreToolUse" upd) /\
      lookup "command" upd =
        Some ("unset ANTHROPIC_API_KEY CLAUDE_CODE_OAUTH_TOKEN 2>/dev/null; " ++ c)%string /\
      (forall k, k <> "command" -> lookup k upd = lookup k tool_input).
Proof.
  intros ti c Hl Hne.
  unfold sanitizeBashHook. rewrite Hl. simpl.
  destruct (String.eqb c EmptyString) eqn:E.
  - apply String.eqb_eq in E. contradiction.
  - simpl. eexists; split; [reflexivity | split].
    + apply lookup_set_field_same.
    + intros k Hk. now apply lookup_set_field_other.
Qed.

Lemma sanitize_bash_prefixes_unset_witness :
  exists upd,
    sanitizeBashHook [("command", "env"); ("timeout", "60")] =
      Some (mkHookSpecificOutput "PreToolUse" upd) /\
    lookup "command" upd =
      Some ("unset ANTHROPIC_API_KEY CLAUDE_CODE_OAUTH_TOKEN 2>/dev/null; " ++ "env")%string /\
    (forall k, k <> "command" ->
       lookup k upd = lookup k [("command", "env"); ("timeout", "60")]).
Proof.
  apply sanitize_bash_prefixes_unset; [reflexivity | discriminate].
Defined.

(** ** The first prompt *)

Lemma query_loop_first : forall W run wait fuel (w : W) p sid resumeAt,
  exists rest,
    query_loop run wait (S fuel) w p sid resumeAt = ACall p sid resumeAt :: rest.
Proof.
  intros. simpl. destruct (run w p sid resumeAt) as [[w1 outs] oc].
  eexists; reflexivity.
Qed.

Lemma main_first_call : forall fuel parse stdin w0 ci,
  parse stdin = ParseOk ci ->
  exists rest,
    main (S fuel) parse stdin w0 =
    ACall (fst (initial_prompt ci (mkFS false (inbox (w_fs w0)) false)))
          (sessionId ci) None :: rest.
Proof.
  intros fuel parse stdin w0 ci Hp.
  unfold main, main_startup. rewrite Hp.
  unfold initial_prompt, drainIpcInput. simpl.
  destruct (inbox (w_fs w0)); simpl; apply query_loop_first.
Qed.

Lemma join_lines : forall l : list string,
  l <> [] ->
  (nl ++ join nl l)%string = fold_right (fun m acc => nl ++ m ++ acc)%string EmptyString l.
Proof.
  induction l as [|x l IH]; intros Hne; [contradiction |].
  destruct l as [|y l].
  - simpl. now rewrite str_app_nil_r.
  - transitivity (nl ++ x ++ (nl ++ join nl (y :: l)))%string; [reflexivity |].
    rewrite IH by discriminate. reflexivity.
Qed.

Lemma initial_prompt_text : forall ci fs,
  fst (initial_prompt ci fs) =
  ((match isScheduledTask ci with
    | Some true => SCHEDULED_BANNER ++ nl ++ nl ++ prompt ci
    | _ => prompt ci
    end) ++ fold_right (fun m acc => nl ++ m ++ acc) EmptyString (inbox fs))%string.
Proof.
  intros ci fs. unfold initial_prompt, drainIpcInput. simpl.
  destruct (inbox fs) as [|m l] eqn:E; simpl fst.
  - now rewrite str_app_nil_r.
  - rewrite <- join_lines by discriminate. reflexivity.
Qed.

Definition ci_sched : ContainerInput :=
  mkContainerInput "hello" None "main" "chat@g.us" true (Some true) None None [].

(** Claim C2 (counterexample): for a scheduled task with an empty inbox
    the first prompt is not the document's prompt: it starts with the
    scheduled-task banner. *)
Lemma first_prompt_scheduled_differs :
  main 1 (fun _ => ParseOk ci_sched) "{}" (mkWorld (mkFS true [] false) [] [] []) =
  [ACall (SCHEDULED_BANNER ++ nl ++ nl ++ "hello") None None] /\
  (SCHEDULED_BANNER ++ nl ++ nl ++ "hello")%string <> ("hello" ++ EmptyString)%string.
Proof. split; [reflexivity | discriminate]. Qed.

(** Claim C2 (amended): the first prompt passed to the driver is the
    document's prompt (preceded by the scheduled-task banner and a blank
    line when the scheduled flag is set) followed by every message pending
    in the inbox, in delivery order, each after a newline. *)
Theorem first_prompt_with_pending :
  forall fuel parse stdin w0 ci,
    parse stdin = ParseOk ci ->
    exists rest,
      main (S fuel) parse stdin w0 =
      ACall ((match isScheduledTask ci with
              | Some true => SCHEDULED_BANNER ++ nl ++ nl ++ prompt ci
              | _ => prompt ci
              end) ++
             fold_right (fun m acc => nl ++ m ++ acc) EmptyString (inbox (w_fs w0)))%string
            (sessionId ci) None :: rest.
Proof.
  intros fuel parse stdin w0 ci Hp.
  destruct (main_first_call fuel parse stdin w0 ci Hp) as [rest Hm].
  exists rest. rewrite Hm, initial_prompt_text. reflexivity.
Qed.

Definition ci_hello : ContainerInput :=
  mkContainerInput "hello" (Some "s0") "main" "chat@g.us" true None None None [].

Lemma first_prompt_with_pending_witness :
  exists rest,
    main 2 (fun _ => ParseOk ci_hello) "{}"
         (mkWorld (mkFS true ["a"; "b"] true) [] [] []) =
    ACall ((match isScheduledTask ci_hello with
            | Some true => SCHEDULED_BANNER ++ nl ++ nl ++ prompt ci_hello
            | _ => prompt ci_hello
            end) ++
           fold_right (fun m acc => nl ++ m ++ acc) EmptyString
             (inbox (w_fs (mkWorld (mkFS true ["a"; "b"] true) [] [] []))))%string
          (sessionId ci_hello) None :: rest.
Proof. apply (first_prompt_with_pending 1 _ "{}"). reflexivity. Defined.

(** Claim C10: with the scheduled flag set, the first prompt is the
    scheduled-task banner, a blank line and the document's prompt, before
    the pending messages; with the flag absent or false there is no
    prefix. *)
Theorem first_prompt_scheduled_banner :
  forall fuel parse stdin w0 ci,
    parse stdin = ParseOk ci ->
    let pending := fold_right (fun m acc => nl ++ m ++ acc)%string EmptyString
                              (inbox (w_fs w0)) in
    (isScheduledTask ci = Some true ->
     exists rest, main (S fuel) parse stdin w0 =
       ACall ("[SCHEDULED TASK - The following message was sent automatically and is not coming directly from the user or group.]"
              ++ nl ++ nl ++ prompt ci ++ pending)%string (sessionId ci) None :: rest) /\
    (isScheduledTask ci <> Some true ->
     exists rest, main (S fuel) parse stdin w0 =
       ACall (prompt ci ++ pending)%string (sessionId ci) None :: rest).
Proof.
  intros fuel parse stdin w0 ci Hp pending.
  destruct (main_first_call fuel parse stdin w0 ci Hp) as [rest Hm].
  rewrite initial_prompt_text in Hm.
  split; intros Hs; exists rest; rewrite Hm.
  - rewrite Hs. unfold pending. rewrite <- !str_app_assoc. reflexivity.
  - destruct (isScheduledTask ci) as [[|]|]; [contradiction | reflexivity | reflexivity].
Qed.

Lemma first_prompt_scheduled_banner_witness :
  exists rest,
    main 1 (fun _ => ParseOk ci_sched) "{}" (mkWorld (mkFS true ["a"] false) [] [] []) =
    ACall ("[SCHEDULED TASK - The following message was sent automatically and is not coming directly from the user or group.]"
           ++ nl ++ nl ++ "hello" ++ (nl ++ "a" ++ EmptyString))%string None None :: rest.
Proof.
  apply (proj1 (first_prompt_scheduled_banner 0 (fun _ => ParseOk ci_sched) "{}"
                  (mkWorld (mkFS true ["a"] false) [] [] []) ci_sched eq_refl)).
  reflexivity.
Defined.

(** ** The stale sentinel *)

Definition writes_no_sentinel (e : ClaudeEvent) : bool :=
  match e with CHost WSentinel => false | _ => true end.

Lemma claude_event_no_sentinel : forall st e,
  writes_no_sentinel e = true ->
  sentinel (c_fs st) = false -> c_closed st = false ->
  sentinel (c_fs (claude_event st e)) = false /\
  c_closed (claude_event st e) = false.
Proof.
  intros st e He Hs Hc.
  destruct e as [| [m|] | | m |]; simpl in *; try discriminate.
  - destruct (c_timer st); [| now split].
    unfold poll_ipc, shouldClose, drainIpcInput; simpl. rewrite Hs.
    destruct (c_polling st); simpl; now split.
  - now split.
  - now split.
  - destruct m as [sid| |[u|]|t|]; simpl; now split.
  - now split.
Qed.

Lemma claude_loop_no_sentinel : forall evs st st' q,
  forallb writes_no_sentinel evs = true ->
  sentinel (c_fs st) = false -> c_closed st = false ->
  claude_loop st evs = (st', Some q) ->
  closedDuringQuery q = false.
Proof.
  induction evs as [|e evs IH]; intros st st' q Hw Hs Hc Hl; simpl in Hl.
  - discriminate.
  - simpl in Hw. apply andb_prop in Hw as [He Hw].
    destruct e; try (destruct (claude_event_no_sentinel st _ He Hs Hc) as [Hs' Hc'];
                     eapply IH; eauto; fail).
    injection Hl as _ <-. exact Hc.
Qed.

(** Claim C6: whatever the file system holds at process start, once the
    document is parsed the sentinel is removed before the query loop
    begins: the loop starts with no sentinel, so unless the host writes a
    new one, the first streaming invocation does not report
    [closedDuringQuery] and the first wait does not return the terminate
    signal. *)
Theorem stale_sentinel_cleared :
  forall parse stdin fs0 ci,
    parse stdin = ParseOk ci ->
    exists fs k p,
      main_startup parse stdin fs0 = StartLoop fs k p (sessionId ci) /\
      sentinel fs = false /\
      (forall p' sid resumeAt evs fs' outs q,
         forallb writes_no_sentinel evs = true ->
         claude_run fs p' sid resumeAt evs = (fs', outs, Resolved q) ->
         closedDuringQuery q = false) /\
      snd (waitForIpcMessage fs []) <> Some None.
Proof.
  intros parse stdin fs0 ci Hp.
  unfold main_startup. rewrite Hp.
  destruct (initial_prompt ci _) as [p fs] eqn:Ei.
  assert (Hs : sentinel fs = false).
  { unfold initial_prompt, drainIpcInput in Ei. simpl in Ei.
    destruct (inbox fs0); injection Ei as _ <-; reflexivity. }
  exists fs, (select_driver ci), p. split; [reflexivity | split; [exact Hs | split]].
  - intros p' sid resumeAt evs fs' outs q Hw Hr.
    unfold claude_run in Hr.
    destruct (claude_loop (claude_start fs p') evs) as [st [q'|]] eqn:El;
      [injection Hr as _ _ <- | discriminate].
    apply (claude_loop_no_sentinel evs (claude_start fs p') st q'); [exact Hw | exact Hs | reflexivity | exact El].
  - unfold waitForIpcMessage. destruct (inbox fs); [rewrite Hs |]; simpl; discriminate.
Qed.

Lemma stale_sentinel_cleared_witness :
  exists fs k p,
    main_startup (fun _ => ParseOk ci_hello) "{}" (mkFS true [] true) =
      StartLoop fs k p (sessionId ci_hello) /\
    sentinel fs = false /\
    (forall p' sid resumeAt evs fs' outs q,
       forallb writes_no_sentinel evs = true ->
       claude_run fs p' sid resumeAt evs = (fs', outs, Resolved q) ->
       closedDuringQuery q = false) /\
    snd (waitForIpcMessage fs []) <> Some None.
Proof. apply (stale_sentinel_cleared (fun _ => ParseOk ci_hello) "{}"). reflexivity. Defined.

(** ** The sentinel during a streaming invocation *)

(** A pending poll that, if it fired now, would see the sentinel. *)
Definition poll_sees_sentinel (st : CState) : bool :=
  c_timer st && c_polling st && sentinel (c_fs st).

Lemma on_sdk_message_closed : forall st m,
  c_closed (on_sdk_message st m) = c_closed st.
Proof. intros st [sid| |[u|]|t|]; reflexivity. Qed.

Lemma claude_event_closes : forall st e,
  c_closed st = false -> c_closed (claude_event st e) = true ->
  e = CTimer /\ poll_sees_sentinel st = true.
Proof.
  intros st e Hc Hc'.
  destruct e as [| w | | m |]; simpl in Hc'.
  - unfold poll_sees_sentinel.
    destruct (c_timer st); [| congruence].
    unfold poll_ipc, shouldClose, drainIpcInput in Hc'; simpl in Hc'.
    destruct (c_polling st); simpl in Hc'; [| congruence].
    destruct (sentinel (c_fs st)); simpl in Hc'; [now split | congruence].
  - congruence.
  - congruence.
  - rewrite on_sdk_message_closed in Hc'. congruence.
  - congruence.
Qed.

Lemma claude_event_closed_stays : forall st e,
  c_closed st = true -> c_closed (claude_event st e) = true.
Proof.
  intros st e Hc.
  destruct e as [| w | | m |]; simpl; try exact Hc.
  - destruct (c_timer st); [| exact Hc].
    unfold poll_ipc, shouldClose, drainIpcInput; simpl.
    destruct (c_polling st); simpl; [| exact Hc].
    destruct (sentinel (c_fs st)); simpl; [reflexivity | exact Hc].
  - now rewrite on_sdk_message_closed.
Qed.

Lemma claude_event_poll_closes : forall st,
  poll_sees_sentinel st = true -> c_closed (claude_event st CTimer) = true.
Proof.
  intros st H. unfold poll_sees_sentinel in H.
  apply andb_prop in H as [H Hs]. apply andb_prop in H as [Ht Hp].
  simpl. rewrite Ht. unfold poll_ipc, shouldClose; simpl.
  now rewrite Hp, Hs.
Qed.

Lemma ClaudeEvent_eq_end : forall e, {e = CSdkEnd} + {e <> CSdkEnd}.
Proof. intros []; (now left) || (right; discriminate). Qed.

Lemma claude_loop_closed : forall evs st st' q,
  claude_loop st evs = (st', Some q) ->
  (closedDuringQuery q = true <->
   c_closed st = true \/
   exists pre post, evs = pre ++ CTimer :: post /\ ~ In CSdkEnd pre /\
     poll_sees_sentinel (fold_left claude_event pre st) = true).
Proof.
  induction evs as [|e evs IH]; intros st st' q Hl; simpl in Hl; [discriminate |].
  destruct (ClaudeEvent_eq_end e) as [-> | Hne].
  - injection Hl as _ <-. simpl. split; [now left |].
    intros [H | [pre [post [He [Hin _]]]]]; [exact H |].
    destruct pre as [|x pre]; simpl in He; [discriminate |].
    injection He as Hx _. subst x. exfalso; apply Hin; now left.
  - assert (Hl' : claude_loop (claude_event st e) evs = (st', Some q))
      by (destruct e; [exact Hl | exact Hl | exact Hl | exact Hl | contradiction]).
    rewrite (IH _ _ _ Hl'). split.
    + intros [H | [pre [post [He [Hin Hp]]]]].
      * destruct (c_closed st) eqn:Hc; [now left | right].
        destruct (claude_event_closes st e Hc H) as [-> Hp].
        exists [], evs. now repeat split.
      * destruct (c_closed st) eqn:Hc; [now left | right].
        exists (e :: pre), post. subst evs. repeat split; [|exact Hp].
        intros [H | H]; [now apply Hne | now apply Hin].
    + intros [H | [pre [post [He [Hin Hp]]]]].
      * left. now apply claude_event_closed_stays.
      * destruct pre as [|x pre]; simpl in He; injection He as -> He.
        -- left. now apply claude_event_poll_closes.
        -- right. exists pre, post. repeat split; [exact He | | exact Hp].
           intros H; apply Hin; now right.
Qed.

(** Claim C3 (counterexample): the host writes the sentinel while a
    streaming invocation is in flight, and the SDK's loop ends before the
    next 500 ms poll.  The invocation returns [closedDuringQuery = false];
    the orchestrator then writes a session-update record and waits, and
    only that wait sees the sentinel. *)
Lemma sentinel_after_last_poll :
  claude_run (mkFS false [] false) "hello" (Some "s0") None
             [CHost WSentinel; CSdkEnd] =
  (mkFS false [] true, [], Resolved (mkQueryResult None None false)) /\
  main 3 (fun _ => ParseOk ci_hello) "{}"
       (mkWorld (mkFS true [] false) [[CHost WSentinel; CSdkEnd]] [] [[]]) =
  [ACall "hello" (Some "s0") None;
   AReturned (mkQueryResult None None false);
   AWrite (mkOutput Success None (Some "s0") None);
   AWait;
   ADone].
Proof. split; reflexivity. Qed.

(** Claim C3 (amended): a streaming invocation returns
    [closedDuringQuery = true] exactly when one of its periodic polls
    fires while polling is active and finds the sentinel.  Whenever an
    invocation returns [closedDuringQuery = true] the orchestrator stops
    right after it, with no session-update record and no wait; whenever it
    returns [closedDuringQuery = false] (in particular when the sentinel
    appears only after the last poll) the orchestrator next writes a
    session-update record and calls [waitForNext], so such a sentinel
    cannot end the loop before that record and that wait. *)
Theorem closed_during_query :
  (forall fs p sid resumeAt evs fs' outs q,
     claude_run fs p sid resumeAt evs = (fs', outs, Resolved q) ->
     (closedDuringQuery q = true <->
      exists pre post, evs = pre ++ CTimer :: post /\ ~ In CSdkEnd pre /\
        poll_sees_sentinel (fold_left claude_event pre (claude_start fs p)) = true)) /\
  (forall W run wait fuel (w w1 : W) p sid resumeAt outs q,
     run w p sid resumeAt = (w1, outs, Resolved q) ->
     closedDuringQuery q = true ->
     query_loop run wait (S fuel) w p sid resumeAt =
     ACall p sid resumeAt :: map AWrite outs ++ [AReturned q; ADone]) /\
  (forall W run wait fuel (w w1 : W) p sid resumeAt outs q,
     run w p sid resumeAt = (w1, outs, Resolved q) ->
     closedDuringQuery q = false ->
     exists rest,
       query_loop run wait (S fuel) w p sid resumeAt =
       ACall p sid resumeAt :: map AWrite outs ++
       AReturned q ::
       AWrite (mkOutput Success None
                 (if truthy (newSessionId q) then newSessionId q else sid) None) ::
       AWait :: rest).
Proof.
  split; [| split].
  - intros fs p sid resumeAt evs fs' outs q Hr.
    unfold claude_run in Hr.
    destruct (claude_loop (claude_start fs p) evs) as [st [q'|]] eqn:El;
      [injection Hr as _ _ <- | discriminate].
    rewrite (claude_loop_closed _ _ _ _ El). simpl.
    split; [intros [H | H]; [discriminate | exact H] | now right].
  - intros W run wait fuel w w1 p sid resumeAt outs q Hr Hc.
    simpl. rewrite Hr, Hc. reflexivity.
  - intros W run wait fuel w w1 p sid resumeAt outs q Hr Hc.
    simpl. rewrite Hr, Hc. eexists. reflexivity.
Qed.

(** ** The session id across invocations *)

Lemma call_events_writes : forall outs t,
  call_events (map AWrite outs ++ t) = call_events t.
Proof. induction outs; simpl; auto. Qed.

Lemma call_events_loop_head : forall W run wait fuel (w : W) p sid resumeAt,
  call_events (query_loop run wait fuel w p sid resumeAt) = [] \/
  exists tl, call_events (query_loop run wait fuel w p sid resumeAt) = CallE sid :: tl.
Proof.
  intros. destruct fuel as [|fuel]; [now left | right].
  destruct (query_loop_first W run wait fuel w p sid resumeAt) as [rest ->].
  simpl. eexists; reflexivity.
Qed.

(** Claim C5 (amended): for any two consecutive driver invocations of the
    loop, the later one receives the session id returned by the earlier one
    when that id is present and non-empty, and otherwise the earlier one's
    session id argument unchanged. *)
Theorem session_id_round_trip :
  forall W run wait fuel (w : W) p sid resumeAt pre s1 q s2 post,
    call_events (query_loop run wait fuel w p sid resumeAt) =
      pre ++ CallE s1 :: RetE q :: CallE s2 :: post ->
    s2 = if truthy (newSessionId q) then newSessionId q else s1.
Proof.
  intros W run wait fuel.
  induction fuel as [|fuel IH]; intros w p sid resumeAt pre s1 q s2 post H.
  - simpl in H. destruct pre; discriminate.
  - simpl in H. destruct (run w p sid resumeAt) as [[w1 outs] oc].
    simpl in H. rewrite call_events_writes in H.
    destruct oc as [q0 | m |].
    + simpl in H.
      destruct (closedDuringQuery q0).
      * destruct pre as [|x [|y pre]]; simpl in H; try discriminate.
        injection H as _ H. destruct pre; discriminate.
      * simpl in H. destruct (wait w1) as [w2 [[m|]|]].
        -- destruct pre as [|x [|y pre]]; simpl in H.
           ++ injection H as <- <- H.
              destruct (call_events_loop_head W run wait fuel w2 m
                          (if truthy (newSessionId q0) then newSessionId q0 else sid)
                          (if truthy (lastAssistantUuid q0) then lastAssistantUuid q0
                           else resumeAt)) as [E | [tl E]];
                rewrite E in H; [discriminate | injection H as <- _; reflexivity].
           ++ discriminate.
           ++ injection H as _ _ H. eapply IH; exact H.
        -- destruct pre as [|x [|y pre]]; simpl in H; try discriminate.
           injection H as _ _ H. destruct pre; discriminate.
        -- destruct pre as [|x [|y pre]]; simpl in H; try discriminate.
           injection H as _ _ H. destruct pre; discriminate.
    + simpl in H. destruct pre as [|x pre]; simpl in H; try discriminate.
      injection H as _ H. destruct pre; discriminate.
    + simpl in H. destruct pre as [|x pre]; simpl in H; try discriminate.
      injection H as _ H. destruct pre; discriminate.
Qed.

Definition two_claude_runs (init_sid : string) : World :=
  mkWorld (mkFS false [] false)
          [[CSdk (SdkSystemInit init_sid); CSdkEnd]; [CSdkEnd]] []
          [[WMessage "next"]].

Lemma session_id_round_trip_witness :
  Some "s1" =
  (if truthy (newSessionId (mkQueryResult (Some "s1") None false))
   then newSessionId (mkQueryResult (Some "s1") None false) else Some "s0").
Proof.
  apply (session_id_round_trip World (driver_run Claude) world_wait 2
           (two_claude_runs "s1") "hello" (Some "s0") None []
           (Some "s0") (mkQueryResult (Some "s1") None false) (Some "s1")
           [RetE (mkQueryResult None None false)]).
  reflexivity.
Defined.

(** Claim C5 (counterexample): the SDK reports an empty session id.  The
    invocation returns [newSessionId = Some ""], yet the next invocation
    receives the previous session id ["s0"]. *)
Lemma empty_session_id_not_adopted :
  call_events (query_loop (driver_run Claude) world_wait 2 (two_claude_runs "")
                          "hello" (Some "s0") None) =
  [CallE (Some "s0"); RetE (mkQueryResult (Some "") None false);
   CallE (Some "s0"); RetE (mkQueryResult None None false)] /\
  Some "s0" <> Some "".
Proof. split; [reflexivity | discriminate]. Qed.

(** ** The message feed *)

Definition waiting_matches (s : MessageStream) : bool :=
  match gen s with GAwait _ => waiting s | _ => negb (waiting s) end.

(** What holds of the stream between any two calls. *)
Definition stream_inv (ended : bool) (s : MessageStream) : Prop :=
  done s = ended /\ waiting_matches s = true /\
  (gen s = GAwait false -> queue s = [] /\ done s = false) /\
  (gen s = GDone -> queue s = [] /\ done s = true).

Lemma stream_inv_init : stream_inv false stream_init.
Proof. repeat split; discriminate. Qed.

Lemma stream_inv_push : forall s t,
  stream_inv false s -> stream_inv false (push t s).
Proof.
  intros [q w d g] t (Hd & Hw & Ha & Hg).
  unfold stream_inv, waiting_matches, push, wake in *; simpl in *; subst d.
  destruct g as [|[|]|], w; simpl in *; try discriminate.
  - repeat split; discriminate.
  - repeat split; discriminate.
  - repeat split; discriminate.
  - destruct (Hg eq_refl); discriminate.
Qed.

Lemma stream_inv_end : forall e s,
  stream_inv e s -> stream_inv true (end_ s).
Proof.
  intros e [q w d g] (Hd & Hw & Ha & Hg).
  unfold stream_inv, waiting_matches, end_, wake in *; simpl in *.
  destruct g as [|[|]|], w; simpl in *; try discriminate.
  - repeat split; discriminate.
  - repeat split; discriminate.
  - repeat split; discriminate.
  - destruct (Hg eq_refl) as [-> _]. repeat split; discriminate.
Qed.

Lemma stream_inv_body : forall e s r s',
  stream_inv e s -> waiting s = false -> gen_body s = (r, s') ->
  stream_inv e s' /\
  match queue s with
  | m :: q => r = Yielded m /\ queue s' = q
  | [] => r = (if done s then Returned else Blocked) /\ queue s' = []
  end.
Proof.
  intros e [q w d g] r s' (Hd & _ & _ & _) Hw Hb; simpl in *; subst w.
  unfold gen_body in Hb; simpl in Hb.
  destruct q as [|m q].
  - destruct d; injection Hb as <- <-; simpl.
    + repeat split; auto; discriminate.
    + repeat split; auto; discriminate.
  - injection Hb as <- <-. repeat split; auto; discriminate.
Qed.

Lemma stream_inv_next : forall e s r s',
  stream_inv e s -> gen_next s = (r, s') ->
  stream_inv e s' /\
  match queue s with
  | m :: q => r = Yielded m /\ queue s' = q
  | [] => r = (if done s then Returned else Blocked) /\ queue s' = []
  end.
Proof.
  intros e s r s' Hi Hn.
  pose proof Hi as (Hd & Hw & Ha & Hg).
  unfold gen_next in Hn. unfold waiting_matches in Hw.
  destruct (gen s) as [|[|]|] eqn:Eg.
  - apply negb_true_iff in Hw. eapply stream_inv_body; eauto.
  - destruct s as [q w d g]; simpl in *.
    apply (stream_inv_body e (mkStream q false d GRun) r s'); [| reflexivity | exact Hn].
    repeat split; simpl; auto; discriminate.
  - injection Hn as <- <-. destruct (Ha eq_refl) as [-> ->]. now split.
  - injection Hn as <- <-. destruct (Hg eq_refl) as [-> ->]. now split.
Qed.

Definition as_message (t : string) : SDKUserMessage := mkSDKUserMessage t EmptyString.

Lemma run_ops_inv : forall ops e s,
  producer_ok e ops = true -> stream_inv e s ->
  stream_inv (e || ended ops) (snd (run_ops s ops)) /\
  fst (run_ops s ops) ++ queue (snd (run_ops s ops)) =
  queue s ++ map as_message (pushed ops).
Proof.
  induction ops as [|op ops IH]; intros e s Hok Hi.
  - simpl. rewrite orb_false_r, app_nil_r. now split.
  - destruct op as [t | |]; simpl in Hok |- *.
    + apply andb_prop in Hok as [He Hok]. apply negb_true_iff in He; subst e.
      destruct (run_ops (push t s) ops) as [ys s2] eqn:Er; simpl.
      pose proof (IH false (push t s) Hok (stream_inv_push s t Hi)) as [Hi2 Hq].
      rewrite Er in Hi2, Hq; simpl in Hi2, Hq.
      split; [exact Hi2 |]. rewrite Hq. unfold push, wake.
      destruct (waiting s); simpl; now rewrite <- app_assoc.
    + destruct (run_ops (end_ s) ops) as [ys s2] eqn:Er; simpl.
      pose proof (IH true (end_ s) Hok (stream_inv_end e s Hi)) as [Hi2 Hq].
      rewrite Er in Hi2, Hq; simpl in Hi2, Hq.
      rewrite orb_true_r. split; [exact Hi2 |]. rewrite Hq.
      unfold end_, wake. destruct (waiting s); reflexivity.
    + destruct (gen_next s) as [r s1] eqn:En.
      destruct (stream_inv_next e s r s1 Hi En) as [Hi1 Hm].
      destruct (run_ops s1 ops) as [ys s2] eqn:Er; simpl.
      pose proof (IH e s1 Hok Hi1) as [Hi2 Hq].
      rewrite Er in Hi2, Hq; simpl in Hi2, Hq.
      split; [exact Hi2 |].
      destruct (queue s) as [|m q].
      * destruct Hm as [Hr Hq1]. rewrite Hq1 in Hq. simpl in Hq.
        destruct (done s); subst r; exact Hq.
      * destruct Hm as [-> Hq1]. rewrite Hq1 in Hq. simpl. now rewrite Hq.
Qed.

Lemma pull_n_S : forall n s,
  pull_n (S n) s =
  let '(r, s1) := gen_next s in let '(rs, s2) := pull_n n s1 in (r :: rs, s2).
Proof. reflexivity. Qed.

Lemma pull_all : forall n e s,
  length (queue s) = n -> stream_inv e s ->
  fst (pull_n (S n) s) =
  map Yielded (queue s) ++ [if e then Returned else Blocked].
Proof.
  induction n as [|n IH]; intros e s Hl Hi; rewrite pull_n_S.
  - destruct (gen_next s) as [r s1] eqn:En.
    destruct (stream_inv_next e s r s1 Hi En) as [_ Hm].
    destruct (queue s); [| discriminate].
    destruct Hm as [-> _]. destruct Hi as [-> _]. reflexivity.
  - destruct (gen_next s) as [r s1] eqn:En.
    destruct (stream_inv_next e s r s1 Hi En) as [Hi1 Hm].
    destruct (queue s) as [|m q]; [discriminate |].
    destruct Hm as [-> Hq]. simpl in Hl.
    specialize (IH e s1 ltac:(rewrite Hq; lia) Hi1).
    destruct (pull_n (S n) s1) as [rs s2]; simpl in IH |- *.
    rewrite IH, Hq. reflexivity.
Qed.

(** Claim C9: whatever the interleaving of the producer's calls (pushes,
    then possibly [end()]) with the consumer's [next()] calls, the
    messages received so far followed by those still queued are exactly
    the pushed messages, each once, in push order; further [next()] calls
    deliver the queued ones in order and then, once [end()] has been
    called, the iterator returns (before that it waits). *)
Theorem message_stream_fifo :
  forall ops,
    producer_ok false ops = true ->
    let '(ys, s) := run_ops stream_init ops in
    ys ++ queue s = map as_message (pushed ops) /\
    fst (pull_n (S (length (queue s))) s) =
      map Yielded (queue s) ++ [if ended ops then Returned else Blocked].
Proof.
  intros ops Hok.
  pose proof (run_ops_inv ops false stream_init Hok stream_inv_init) as [Hi Hq].
  destruct (run_ops stream_init ops) as [ys s]; simpl in Hi, Hq |- *.
  split; [exact Hq |].
  now apply (pull_all _ (ended ops) s).
Qed.

Lemma message_stream_fifo_witness :
  producer_ok false [OPush "p"; OPull; OPull; OPush "a"; OPush "b"; OPull; OEnd] = true /\
  let '(ys, s) := run_ops stream_init
                    [OPush "p"; OPull; OPull; OPush "a"; OPush "b"; OPull; OEnd] in
  ys ++ queue s = map as_message
                    (pushed [OPush "p"; OPull; OPull; OPush "a"; OPush "b"; OPull; OEnd]) /\
  fst (pull_n (S (length (queue s))) s) =
    map Yielded (queue s) ++
    [if ended [OPush "p"; OPull; OPull; OPush "a"; OPush "b"; OPull; OEnd]
     then Returned else Blocked].
Proof.
  split; [reflexivity |].
  apply (message_stream_fifo [OPush "p"; OPull; OPull; OPush "a"; OPush "b"; OPull; OEnd]).
  reflexivity.
Defined.

Lemma closed_during_query_witness :
  (closedDuringQuery (mkQueryResult None None true) = true <->
   exists pre post, [CTimer; CSdkEnd] = pre ++ CTimer :: post /\ ~ In CSdkEnd pre /\
     poll_sees_sentinel (fold_left claude_event pre
                           (claude_start (mkFS false [] true) "hello")) = true) /\
  query_loop (driver_run Claude) world_wait 3
    (mkWorld (mkFS false [] true) [[CTimer; CSdkEnd]] [] [])
    "hello" (Some "s0") None =
  ACall "hello" (Some "s0") None :: map AWrite [] ++
  [AReturned (mkQueryResult None None true); ADone] /\
  exists rest,
    query_loop (driver_run Claude) world_wait 3
      (mkWorld (mkFS false [] false) [[CHost WSentinel; CSdkEnd]] [] [[]])
      "hello" (Some "s0") None =
    ACall "hello" (Some "s0") None :: map AWrite [] ++
    AReturned (mkQueryResult None None false) ::
    AWrite (mkOutput Success None
              (if truthy (newSessionId (mkQueryResult None None false))
               then newSessionId (mkQueryResult None None false)
               else Some "s0") None) ::
    AWait :: rest.
Proof.
  split; [| split].
  - apply (proj1 closed_during_query (mkFS false [] true) "hello" (Some "s0") None
             [CTimer; CSdkEnd] (mkFS false [] false) []).
    reflexivity.
  - apply (proj1 (proj2 closed_during_query) World (driver_run Claude) world_wait 2
             (mkWorld (mkFS false [] true) [[CTimer; CSdkEnd]] [] [])
             (mkWorld (mkFS false [] false) [] [] [])).
    + reflexivity.
    + reflexivity.
  - apply (proj2 (proj2 closed_during_query) World (driver_run Claude) world_wait 2
             (mkWorld (mkFS false [] false) [[CHost WSentinel; CSdkEnd]] [] [[]])
             (mkWorld (mkFS false [] true) [] [] [[]])).
    + reflexivity.
    + reflexivity.
Defined.

(** ** [sanitizeFilename] *)

Fixpoint no_double_dash (l : list ascii) : bool :=
  match l with
  | a :: ((b :: _) as t) =>
      negb (Ascii.eqb a dash && Ascii.eqb b dash) && no_double_dash t
  | _ => true
  end.

Definition name_char (c : ascii) : bool := is_az09 c || Ascii.eqb c dash.

Lemma az09_not_dash : forall c, is_az09 c = true -> Ascii.eqb c dash = false.
Proof.
  intros c H. destruct (Ascii.eqb_spec c dash) as [-> | ]; [discriminate | reflexivity].
Qed.

Lemma replace_runs_chars : forall s b, forallb name_char (replace_runs b s) = true.
Proof.
  induction s as [|c s IH]; intros b; simpl; [reflexivity |].
  destruct (is_az09 c) eqn:E; simpl.
  - unfold name_char. rewrite E. simpl. apply IH.
  - destruct b; [apply IH | simpl; apply IH].
Qed.

Lemma replace_runs_in_run_head : forall s d t,
  replace_runs true s = d :: t -> Ascii.eqb d dash = false.
Proof.
  induction s as [|c s IH]; intros d t H; simpl in H; [discriminate |].
  destruct (is_az09 c) eqn:E.
  - injection H as <- _. now apply az09_not_dash.
  - eapply IH; exact H.
Qed.

Lemma no_dd_cons2 : forall a b t,
  no_double_dash (a :: b :: t) =
  negb (Ascii.eqb a dash && Ascii.eqb b dash) && no_double_dash (b :: t).
Proof. reflexivity. Qed.

Lemma replace_runs_no_dd : forall s b, no_double_dash (replace_runs b s) = true.
Proof.
  induction s as [|c s IH]; intros b; simpl; [reflexivity |].
  destruct (is_az09 c) eqn:E.
  - specialize (IH false). destruct (replace_runs false s) as [|d t] eqn:R; [reflexivity |].
    rewrite no_dd_cons2, (az09_not_dash c E). exact IH.
  - destruct b; [apply IH |].
    specialize (IH true). destruct (replace_runs true s) as [|d t] eqn:R; [reflexivity |].
    rewrite no_dd_cons2, (replace_runs_in_run_head s d t R), andb_false_r.
    exact IH.
Qed.

Lemma no_dd_app_l : forall p t, no_double_dash (p ++ t) = true -> no_double_dash p = true.
Proof.
  induction p as [|a p IH]; intros t H; [reflexivity |].
  destruct p as [|b p]; [reflexivity |].
  change ((a :: b :: p) ++ t) with (a :: b :: (p ++ t)) in H.
  rewrite no_dd_cons2 in H |- *. apply andb_prop in H as [H1 H2]. rewrite H1.
  apply (IH t). exact H2.
Qed.

Lemma no_dd_app_r : forall p t, no_double_dash (p ++ t) = true -> no_double_dash t = true.
Proof.
  induction p as [|a p IH]; intros t H; [exact H |].
  apply IH. change ((a :: p) ++ t) with (a :: (p ++ t)) in H.
  destruct (p ++ t) as [|b r]; [reflexivity |].
  rewrite no_dd_cons2 in H. now apply andb_prop in H as [_ H].
Qed.

Lemma drop_dashes_suffix : forall s, exists p, s = p ++ drop_dashes s.
Proof.
  induction s as [|c s IH]; [now exists [] |]. simpl.
  destruct (Ascii.eqb c dash); [destruct IH as [p Hp]; exists (c :: p); simpl; now f_equal | now exists []].
Qed.

Lemma drop_dashes_head : forall s d t, drop_dashes s = d :: t -> Ascii.eqb d dash = false.
Proof.
  induction s as [|c s IH]; intros d t H; simpl in H; [discriminate |].
  destruct (Ascii.eqb c dash) eqn:E; [eapply IH; exact H |].
  injection H as <- _. exact E.
Qed.

Lemma drop_trailing_prefix : forall s, exists t, s = drop_trailing_dashes s ++ t.
Proof.
  induction s as [|c s [t Ht]]; [now exists [] |]. simpl.
  destruct (drop_trailing_dashes s) as [|d r] eqn:E.
  - destruct (Ascii.eqb c dash); [exists (c :: s) | exists s]; reflexivity.
  - exists t. simpl. now rewrite Ht at 1.
Qed.

Lemma prefix_head : forall (p t : list ascii) d r, p = d :: r -> exists r', p ++ t = d :: r'.
Proof. intros p t d r ->. now eexists. Qed.

Theorem sanitizeFilename_shape : forall summary,
  let r := list_ascii_of_string (sanitizeFilename summary) in
  List.length r <= 50 /\
  forallb name_char r = true /\
  no_double_dash r = true /\
  (forall d t, r = d :: t -> d <> dash).
Proof.
  intros summary r. unfold r, sanitizeFilename.
  rewrite list_ascii_of_string_of_list_ascii.
  set (x := replace_runs false (map to_lower (list_ascii_of_string summary))).
  unfold trim_dashes.
  destruct (drop_dashes_suffix x) as [p Hp].
  destruct (drop_trailing_prefix (drop_dashes x)) as [t Ht].
  pose proof (firstn_skipn 50 (drop_trailing_dashes (drop_dashes x))) as Hf.
  set (y := drop_trailing_dashes (drop_dashes x)) in *.
  set (z := firstn 50 y) in *.
  assert (Hx : x = p ++ (z ++ skipn 50 y) ++ t) by (rewrite Hf, <- Ht; exact Hp).
  repeat split.
  - apply firstn_le_length.
  - pose proof (replace_runs_chars (map to_lower (list_ascii_of_string summary)) false) as H.
    fold x in H. rewrite Hx, !forallb_app in H.
    apply andb_prop in H as [_ H]. apply andb_prop in H as [H _].
    apply andb_prop in H as [H _]. exact H.
  - pose proof (replace_runs_no_dd (map to_lower (list_ascii_of_string summary)) false) as H.
    fold x in H. rewrite Hx in H. apply no_dd_app_r in H.
    apply no_dd_app_l in H. apply no_dd_app_l in H. exact H.
  - intros d r' Hz Hd.
    destruct (prefix_head z (skipn 50 y) d r' Hz) as [r1 H1]. rewrite Hf in H1.
    destruct (prefix_head y t d r1 H1) as [r2 H2]. rewrite <- Ht in H2.
    pose proof (drop_dashes_head x d r2 H2). subst d. discriminate.
Qed.

Lemma sanitizeFilename_example :
  sanitizeFilename "  Fix Bug #42: Crash on Start! " = "fix-bug-42-crash-on-start".
Proof. reflexivity. Qed.

(** ** The pre-compaction archive *)

Lemma list_ascii_app : forall a b,
  list_ascii_of_string (a ++ b) = list_ascii_of_string a ++ list_ascii_of_string b.
Proof. induction a; intros; simpl; [reflexivity | now rewrite IHa]. Qed.

Lemma digit_az09 : forall n, is_az09 (ascii_of_nat (48 + n mod 10)) = true.
Proof.
  intros n. pose proof (Nat.mod_upper_bound n 10 ltac:(lia)).
  unfold is_az09. rewrite nat_ascii_embedding by lia.
  apply orb_true_intro; right. apply andb_true_intro; split; apply Nat.leb_le; lia.
Qed.

Lemma digits_aux_az09 : forall fuel n acc,
  forallb is_az09 (list_ascii_of_string acc) = true ->
  forallb is_az09 (list_ascii_of_string (digits_aux fuel n acc)) = true.
Proof.
  induction fuel as [|f IH]; intros n acc H; simpl; [exact H |].
  assert (H' : forallb is_az09 (list_ascii_of_string
                 (String (ascii_of_nat (48 + n mod 10)) acc)) = true)
    by (cbn [list_ascii_of_string forallb]; now rewrite digit_az09, H).
  destruct (Nat.ltb n 10); [exact H' | now apply IH].
Qed.

Lemma pad2_az09 : forall s,
  forallb is_az09 (list_ascii_of_string s) = true ->
  forallb is_az09 (list_ascii_of_string (pad2 s)) = true.
Proof.
  intros s H. unfold pad2. rewrite list_ascii_app, list_ascii_of_string_of_list_ascii.
  rewrite forallb_app, H, andb_true_r.
  generalize (2 - String.length s); induction n; simpl; [reflexivity | exact IHn].
Qed.

Lemma az09_name_char : forall l, forallb is_az09 l = true -> forallb name_char l = true.
Proof.
  induction l as [|c l IH]; simpl; [reflexivity |].
  intros H; apply andb_prop in H as [H1 H2]. unfold name_char. rewrite H1. simpl. auto.
Qed.

Lemma fallback_name_chars : forall hours minutes,
  forallb name_char (list_ascii_of_string (generateFallbackName hours minutes)) = true.
Proof.
  intros h m. unfold generateFallbackName. rewrite !list_ascii_app, !forallb_app.
  rewrite (az09_name_char (list_ascii_of_string (pad2 (number_to_string h))))
    by (apply pad2_az09, digits_aux_az09; reflexivity).
  rewrite (az09_name_char (list_ascii_of_string (pad2 (number_to_string m))))
    by (apply pad2_az09, digits_aux_az09; reflexivity).
  reflexivity.
Qed.

Lemma before_T_in : forall s c,
  In c (list_ascii_of_string (before_T s)) -> In c (list_ascii_of_string s).
Proof.
  induction s as [|a s IH]; intros c H; simpl in *; [exact H |].
  destruct (Ascii.eqb a "T"%char); simpl in H; [contradiction |].
  destruct H as [H | H]; [now left | right; now apply IH].
Qed.

Lemma name_char_not_slash : forall l, forallb name_char l = true -> ~ In "/"%char l.
Proof.
  intros l H Hin. rewrite forallb_forall in H. specialize (H _ Hin).
  vm_compute in H. discriminate.
Qed.

(** The hook names the archive [<date>-<name>.md] where [<date>] is the
    part of the ISO timestamp before [T] and [<name>] consists of
    [a-z], [0-9] and [-] only (the sanitized summary, or the
    [conversation-HHMM] fallback); so, the timestamp having no [/], the
    archive is always written directly inside the conversations directory. *)
Theorem preCompact_archive_name :
  forall parse_line parse_index assistantName files index_file iso_now hours minutes
         now input fname md,
    ~ In "/"%char (list_ascii_of_string iso_now) ->
    preCompactHook parse_line parse_index assistantName files index_file iso_now
                   hours minutes now input = Some (fname, md) ->
    (exists name, fname = (before_T iso_now ++ "-" ++ name ++ ".md")%string /\
                  forallb name_char (list_ascii_of_string name) = true) /\
    ~ In "/"%char (list_ascii_of_string fname).
Proof.
  intros pl pi an files idx iso h m now input fname md Hiso Hh.
  unfold preCompactHook in Hh.
  destruct (transcript_path input) as [tp|]; [| discriminate].
  destruct (negb (truthy (Some tp))); [discriminate |].
  destruct (lookup tp files) as [c|]; [| discriminate].
  destruct (parseTranscript pl c) as [|m0 ms]; [discriminate |].
  injection Hh as <- _.
  set (name := if truthy (getSessionSummary pi idx (pc_session_id input))
               then sanitizeFilename (match getSessionSummary pi idx (pc_session_id input)
                                      with Some s => s | None => "" end)
               else generateFallbackName h m).
  assert (Hn : forallb name_char (list_ascii_of_string name) = true).
  { unfold name. destruct (truthy _).
    - apply (proj1 (proj2 (sanitizeFilename_shape _))).
    - apply fallback_name_chars. }
  split; [exists name; split; [reflexivity | exact Hn] |].
  rewrite !list_ascii_app. intros Hin.
  apply in_app_or in Hin as [Hin | Hin]; [apply Hiso; now apply before_T_in in Hin |].
  simpl in Hin. destruct Hin as [Hin | Hin]; [discriminate |].
  rewrite list_ascii_app in Hin.
  apply in_app_or in Hin as [Hin | Hin]; [exact (name_char_not_slash _ Hn Hin) |].
  simpl in Hin. repeat (destruct Hin as [Hin | Hin]; [discriminate |]). exact Hin.
Qed.

Definition transcript_parse_example (line : string) : option Entry :=
  if String.eqb line "u" then Some (mkEntry (Some "user") (Some (CStr "hi"))) else None.

Lemma preCompact_archive_name_witness :
  ~ In "/"%char (list_ascii_of_string "2026-10-18T09:05:00.000Z") /\
  (exists name, "2026-10-18-conversation-0905.md" =
                (before_T "2026-10-18T09:05:00.000Z" ++ "-" ++ name ++ ".md")%string /\
                forallb name_char (list_ascii_of_string name) = true) /\
  ~ In "/"%char (list_ascii_of_string "2026-10-18-conversation-0905.md").
Proof.
  assert (H : ~ In "/"%char (list_ascii_of_string "2026-10-18T09:05:00.000Z")).
  { simpl. intros H. repeat (destruct H as [H | H]; [discriminate |]). exact H. }
  split; [exact H |].
  apply (preCompact_archive_name transcript_parse_example (fun _ => None) None
           [("/t.jsonl", "u")] None "2026-10-18T09:05:00.000Z" 9 5 "now"
           (mkPreCompactInput (Some "/t.jsonl") "s1")
           "2026-10-18-conversation-0905.md"
           (formatTranscriptMarkdown [mkTMsg RUser "hi"] None None "now") H).
  reflexivity.
Defined.

(** ** The session summary *)

Lemma find_split : forall (A : Type) (f : A -> bool) l x,
  find f l = Some x ->
  exists pre post, l = pre ++ x :: post /\ Forall (fun y => f y = false) pre /\ f x = true.
Proof.
  intros A f l x; induction l as [|y l IH]; simpl; [discriminate |].
  destruct (f y) eqn:E.
  - intros H; injection H as <-. exists [], l. split; [reflexivity | split; [constructor | exact E]].
  - intros H. destruct (IH H) as (pre & post & -> & Hf & Hx).
    exists (y :: pre), post. split; [reflexivity | split; [constructor; assumption | exact Hx]].
Qed.

(** [getSessionSummary] answers only with a non-empty summary, and only
    with the summary of the first index entry carrying the session id: a
    later entry with the same id is never consulted. *)
Theorem getSessionSummary_first_match :
  forall parse_index index_file sid s,
    getSessionSummary parse_index index_file sid = Some s ->
    s <> EmptyString /\
    exists c entries pre e post,
      index_file = Some c /\ parse_index c = Some entries /\
      entries = pre ++ e :: post /\
      Forall (fun e' => se_sessionId e' <> sid) pre /\
      se_sessionId e = sid /\ se_summary e = Some s.
Proof.
  intros pi idx sid s H. unfold getSessionSummary in H.
  destruct idx as [c|]; [| discriminate].
  destruct (pi c) as [entries|] eqn:Ep; [| discriminate].
  destruct (find _ entries) as [e|] eqn:Ef; [| discriminate].
  destruct (truthy (se_summary e)) eqn:Et; [| discriminate].
  apply find_split in Ef as (pre & post & Hl & Hpre & He).
  rewrite H in Et. split.
  - intros Hs. subst s. discriminate.
  - exists c, entries, pre, e, post.
    split; [reflexivity | split; [exact Ep | split; [exact Hl | split]]].
    + eapply Forall_impl; [| exact Hpre]. intros y Hy. apply String.eqb_neq. exact Hy.
    + split; [apply String.eqb_eq; exact He | exact H].
Qed.

Definition sessions_index_example : list SessionEntry :=
  [mkSessionEntry "s1" "/p/s1.jsonl" None "hi";
   mkSessionEntry "s2" "/p/s2.jsonl" (Some "Fix the build") "build";
   mkSessionEntry "s2" "/p/s2b.jsonl" (Some "Other") "again"].

Lemma getSessionSummary_first_match_witness :
  getSessionSummary (fun _ => Some sessions_index_example) (Some "{}") "s2" =
    Some "Fix the build" /\
  ("Fix the build" <> EmptyString /\
   exists c entries pre e post,
     Some "{}" = Some c /\ Some sessions_index_example = Some entries /\
     entries = pre ++ e :: post /\
     Forall (fun e' => se_sessionId e' <> "s2") pre /\
     se_sessionId e = "s2" /\ se_summary e = Some "Fix the build").
Proof.
  assert (H : getSessionSummary (fun _ => Some sessions_index_example) (Some "{}") "s2" =
              Some "Fix the build") by reflexivity.
  split; [exact H |].
  exact (getSessionSummary_first_match (fun _ => Some sessions_index_example)
           (Some "{}") "s2" "Fix the build" H).
Defined.

(** ** The transcript parser *)

Lemma split_nl_cons : forall s, exists x rs, split_nl s = x :: rs.
Proof.
  induction s as [|c s [x [rs IH]]]; cbn [split_nl].
  - eexists _, _; reflexivity.
  - rewrite IH. destruct (Ascii.eqb c _); eexists _, _; reflexivity.
Qed.

Lemma split_nl_app : forall a b,
  split_nl (a ++ nl ++ b) = split_nl a ++ split_nl b.
Proof.
  induction a as [|c a IH]; intros b.
  - unfold nl. cbn [String.append split_nl]. rewrite Ascii.eqb_refl. reflexivity.
  - cbn [String.append split_nl]. rewrite IH.
    destruct (split_nl_cons a) as [x [rs E]]. rewrite E.
    destruct (Ascii.eqb c _); reflexivity.
Qed.

(** [parseTranscript] works line by line: the turns of two pieces of a
    transcript joined by a newline are the turns of the first piece
    followed by those of the second. *)
Theorem parseTranscript_lines : forall parse_line a b,
  parseTranscript parse_line (a ++ nl ++ b) =
  parseTranscript parse_line a ++ parseTranscript parse_line b.
Proof.
  intros pl a b. unfold parseTranscript. rewrite split_nl_app. apply flat_map_app.
Qed.

Lemma entry_msg_nonempty : forall e m, entry_msg e = Some m -> tcontent m <> EmptyString.
Proof.
  intros e m H. unfold entry_msg in H.
  destruct (e_type e) as [ty|]; [| discriminate].
  destruct (e_content e) as [c|]; [| discriminate].
  destruct (String.eqb ty "user"); [| destruct (String.eqb ty "assistant")];
    destruct c as [s|ps|]; cbv beta iota zeta in H; try discriminate;
    match type of H with
    | (if String.eqb ?t EmptyString then _ else _) = _ =>
        destruct (String.eqb t EmptyString) eqn:E; [discriminate |];
        injection H as <-; cbn [tcontent]; apply String.eqb_neq; exact E
    end.
Qed.

(** Every turn [parseTranscript] extracts has non-empty text. *)
Theorem parseTranscript_nonempty_turns : forall parse_line content m,
  In m (parseTranscript parse_line content) -> tcontent m <> EmptyString.
Proof.
  intros pl c m H. unfold parseTranscript in H.
  apply in_flat_map in H as [line [_ H]]. unfold parse_one in H.
  destruct (is_blank line); [destruct H |].
  destruct (pl line) as [e|]; [| destruct H].
  destruct (entry_msg e) as [m'|] eqn:E; [| destruct H].
  destruct H as [<- | []]. exact (entry_msg_nonempty e m' E).
Qed.

Lemma parseTranscript_nonempty_turns_witness :
  In (mkTMsg RUser "hi") (parseTranscript transcript_parse_example "u") /\
  tcontent (mkTMsg RUser "hi") <> EmptyString.
Proof.
  assert (H : In (mkTMsg RUser "hi") (parseTranscript transcript_parse_example "u")).
  { vm_compute. left. reflexivity. }
  split; [exact H |].
  exact (parseTranscript_nonempty_turns transcript_parse_example "u" _ H).
Defined.

(** ** The fallback archive name *)

Lemma pad2_number : forall n, n < 100 ->
  pad2 (number_to_string n) = String (digit (n / 10)) (String (digit (n mod 10)) EmptyString).
Proof.
  intros n Hn. unfold number_to_string, digit.
  destruct (Nat.ltb n 10) eqn:E.
  - apply Nat.ltb_lt in E.
    cbn [digits_aux]. rewrite (proj2 (Nat.ltb_lt n 10) E).
    rewrite (Nat.div_small n 10 E). reflexivity.
  - apply Nat.ltb_ge in E.
    destruct n as [|n']; [lia |].
    cbn [digits_aux]. rewrite (proj2 (Nat.ltb_ge (S n') 10) E).
    destruct n' as [|n'']; [lia |].
    cbn [digits_aux].
    assert (Hq : S (S n'') / 10 < 10) by (apply Nat.Div0.div_lt_upper_bound; lia).
    rewrite (proj2 (Nat.ltb_lt _ 10) Hq).
    rewrite (Nat.mod_small (S (S n'') / 10) 10 Hq). reflexivity.
Qed.

(** For a clock time ([getHours()] below 24, [getMinutes()] below 60) the
    fallback name is [conversation-] followed by exactly four digits: the
    hours and the minutes, each padded to two digits. *)
Theorem fallback_name_digits : forall hours minutes,
  hours < 24 -> minutes < 60 ->
  generateFallbackName hours minutes =
    ("conversation-" ++
     String (digit (hours / 10)) (String (digit (hours mod 10))
       (String (digit (minutes / 10)) (String (digit (minutes mod 10)) EmptyString))))%string.
Proof.
  intros h m Hh Hm. unfold generateFallbackName.
  rewrite (pad2_number h) by lia. rewrite (pad2_number m) by lia. reflexivity.
Qed.

Lemma fallback_name_digits_witness :
  (21 < 24 /\ 7 < 60) /\
  generateFallbackName 21 7 =
    ("conversation-" ++
     String (digit (21 / 10)) (String (digit (21 mod 10))
       (String (digit (7 / 10)) (String (digit (7 mod 10)) EmptyString))))%string.
Proof.
  split; [split; lia |]. apply fallback_name_digits; lia.
Defined.

(** ** Environments *)

Lemma lookup_app_last : forall k k0 v0 l,
  lookup k (l ++ [(k0, v0)]) =
  match lookup k l with
  | Some v => Some v
  | None => if String.eqb k k0 then Some v0 else None
  end.
Proof.
  intros k k0 v0 l. induction l as [|[k1 v1] l IH]; cbn [lookup app].
  - destruct (String.eqb k k0); reflexivity.
  - destruct (String.eqb k k1); [reflexivity | exact IH].
Qed.

Lemma lookup_set_field : forall k k0 v0 o,
  lookup k (set_field k0 v0 o) = if String.eqb k k0 then Some v0 else lookup k o.
Proof.
  intros k k0 v0 o. destruct (String.eqb_spec k k0) as [-> | Hne].
  - apply lookup_set_field_same.
  - apply lookup_set_field_other. exact Hne.
Qed.

Lemma lookup_build_sdkEnv : forall env secrets k,
  lookup k (build_sdkEnv env secrets) =
  match lookup k (rev secrets) with Some v => Some v | None => lookup k env end.
Proof.
  intros env s k. unfold build_sdkEnv. revert env.
  induction s as [|[k0 v0] s IH]; intros env; [reflexivity |].
  cbn [fold_left rev]. rewrite IH, lookup_app_last, lookup_set_field.
  destruct (lookup k (rev s)); [reflexivity |].
  destruct (String.eqb k k0); reflexivity.
Qed.

(** The environment handed to the backends: a secret overrides the
    variable of the same name inherited from the process environment (the
    last binding of a name among the secrets wins), and every other
    inherited variable is kept. *)
Theorem build_sdkEnv_lookup : forall env secrets k,
  lookup k (build_sdkEnv env secrets) =
  match lookup k (rev secrets) with Some v => Some v | None => lookup k env end.
Proof.
  intros env s k. unfold build_sdkEnv. revert env.
  induction s as [|[k0 v0] s IH]; intros env; [reflexivity |].
  cbn [fold_left rev]. rewrite IH, lookup_app_last, lookup_set_field.
  destruct (lookup k (rev s)); [reflexivity |].
  destruct (String.eqb k k0); reflexivity.
Qed.

(** The environment of the spawned OpenCode process: the three NanoClaw
    variables always hold the container's chat, group folder and main flag,
    whatever the secrets or the process environment say; every other
    variable is the one of the SDK environment built from them. *)
Theorem opencode_spawn_env : forall ci env k,
  lookup k (opencode_env ci (build_sdkEnv env (secrets ci))) =
  if String.eqb k "NANOCLAW_IS_MAIN" then Some (if isMain ci then "1" else "0")
  else if String.eqb k "NANOCLAW_GROUP_FOLDER" then Some (groupFolder ci)
  else if String.eqb k "NANOCLAW_CHAT_JID" then Some (chatJid ci)
  else match lookup k (rev (secrets ci)) with Some v => Some v | None => lookup k env end.
Proof.
  intros ci env k. unfold opencode_env. rewrite !lookup_set_field, lookup_build_sdkEnv.
  reflexivity.
Qed.

(** ** The records and the result of a Claude invocation *)

Lemma poll_ipc_keeps : forall st,
  c_outs (poll_ipc st) = c_outs st /\
  c_newSessionId (poll_ipc st) = c_newSessionId st /\
  c_lastAssistantUuid (poll_ipc st) = c_lastAssistantUuid st.
Proof.
  intros st. unfold poll_ipc.
  destruct (negb (c_polling st)); [auto |].
  destruct (shouldClose (c_fs st)) as [[|] fs1]; [auto |].
  destruct (drainIpcInput fs1); auto.
Qed.

Lemma claude_event_keeps : forall st e,
  (forall m, e <> CSdk m) ->
  c_outs (claude_event st e) = c_outs st /\
  c_newSessionId (claude_event st e) = c_newSessionId st /\
  c_lastAssistantUuid (claude_event st e) = c_lastAssistantUuid st.
Proof.
  intros st e He. destruct e as [| w | | m |]; cbn [claude_event]; auto.
  - destruct (c_timer st); [| auto].
    match goal with |- context [poll_ipc ?x] =>
      destruct (poll_ipc_keeps x) as (A & B & C); rewrite A, B, C; auto end.
  - exfalso. exact (He m eq_refl).
Qed.

Lemma sdk_message_case : forall e,
  (exists t, e = CSdk (SdkResult t)) \/ e = CSdkEnd \/
  (e <> CSdkEnd /\ forall t, e <> CSdk (SdkResult t)).
Proof.
  intros e. destruct e as [| w | | m |]; try (right; right; split; discriminate).
  - destruct m as [sid | | u | t |];
      try (right; right; split; discriminate).
    left. exists t. reflexivity.
  - right; left; reflexivity.
Qed.

Lemma claude_event_outs : forall st e,
  (forall t, e <> CSdk (SdkResult t)) -> c_outs (claude_event st e) = c_outs st.
Proof.
  intros st e He. destruct e as [| w | | m |]; cbn [claude_event]; try reflexivity.
  - destruct (c_timer st); [| reflexivity].
    match goal with |- context [poll_ipc ?x] =>
      destruct (poll_ipc_keeps x) as (A & _ & _); rewrite A; reflexivity end.
  - destruct m as [sid | | [u|] | t |]; try reflexivity.
    exfalso. exact (He t eq_refl).
Qed.

Lemma claude_loop_outs : forall evs st,
  exists extra,
    c_outs (fst (claude_loop st evs)) = c_outs st ++ extra /\
    map result extra = map result_text (sdk_results evs) /\
    Forall (fun o => status o = Success /\ error o = None) extra.
Proof.
  induction evs as [|e evs IH]; intros st.
  - exists []. cbn. rewrite app_nil_r. auto.
  - destruct (sdk_message_case e) as [[t ->] | [-> | He]].
    + cbn [claude_loop sdk_results claude_event].
      destruct (IH (on_sdk_message st (SdkResult t))) as (x & Hx & Hr & Hf).
      exists (mkOutput Success (result_text t) (c_newSessionId st) None :: x).
      rewrite Hx. cbn [on_sdk_message c_outs]. rewrite <- app_assoc.
      split; [reflexivity | split; [cbn [map result]; rewrite Hr; reflexivity |]].
      constructor; [split; reflexivity | exact Hf].
    + exists []. cbn. rewrite app_nil_r. auto.
    + destruct He as [He1 He2].
      assert (Hl : claude_loop st (e :: evs) = claude_loop (claude_event st e) evs)
        by (destruct e; [reflexivity | reflexivity | reflexivity | reflexivity |
                         contradiction]).
      assert (Hs : sdk_results (e :: evs) = sdk_results evs)
        by (destruct e as [| | | [] |]; try reflexivity; try contradiction;
            exfalso; eapply He2; reflexivity).
      rewrite Hl, Hs.
      destruct (IH (claude_event st e)) as (x & Hx & Hr & Hf).
      exists x. rewrite Hx, (claude_event_outs st e He2). auto.
Qed.

(** The records a Claude invocation writes are exactly one per result
    message the SDK yields before its loop ends, in order: each has status
    [success], no error text, and the message's result text, or null when
    that text is missing or empty. *)
Theorem claude_run_outputs : forall fs p sid resumeAt evs,
  map result (snd (fst (claude_run fs p sid resumeAt evs))) =
    map result_text (sdk_results evs) /\
  Forall (fun o => status o = Success /\ error o = None)
         (snd (fst (claude_run fs p sid resumeAt evs))).
Proof.
  intros fs p sid ra evs. unfold claude_run.
  destruct (claude_loop_outs evs (claude_start fs p)) as (x & Hx & Hr & Hf).
  destruct (claude_loop (claude_start fs p) evs) as [st r].
  cbn [fst snd c_outs claude_start app] in *. rewrite Hx. auto.
Qed.

Lemma claude_loop_result : forall evs st st' q,
  claude_loop st evs = (st', Some q) ->
  newSessionId q = last_init (c_newSessionId st) evs /\
  lastAssistantUuid q = last_uuid (c_lastAssistantUuid st) evs.
Proof.
  induction evs as [|e evs IH]; intros st st' q H; [discriminate |].
  destruct e as [| w | | m |].
  1-3: cbn [claude_loop] in H; apply IH in H;
       match type of H with context [claude_event _ ?e] =>
         destruct (claude_event_keeps st e ltac:(intros ?; discriminate)) as (_ & Hn & Hu)
       end;
       rewrite Hn, Hu in H; exact H.
  - destruct m as [sid | | [u|] | t |];
      cbn [claude_loop claude_event last_init last_uuid] in H |- *;
      apply IH in H; cbn [on_sdk_message c_newSessionId c_lastAssistantUuid] in H;
      exact H.
  - cbn [claude_loop] in H. injection H as _ <-. split; reflexivity.
Qed.

(** The session id and resume point a Claude invocation returns are those
    of the last [system/init] and the last assistant message carrying a
    uuid before the SDK's loop ends; the session id the invocation was
    called with is never echoed back (it returns none without an init). *)
Theorem claude_run_session : forall fs p sid resumeAt evs q,
  snd (claude_run fs p sid resumeAt evs) = Resolved q ->
  newSessionId q = last_init None evs /\ lastAssistantUuid q = last_uuid None evs.
Proof.
  intros fs p sid ra evs q. unfold claude_run.
  destruct (claude_loop (claude_start fs p) evs) as [st [q'|]] eqn:E;
    cbn [snd]; intros H; [| discriminate].
  injection H as <-. exact (claude_loop_result evs (claude_start fs p) st q' E).
Qed.

Definition claude_script_example : list ClaudeEvent :=
  [CSdk (SdkSystemInit "s1"); CSdk (SdkAssistant (Some "u1"));
   CSdk (SdkResult (Some "ok")); CSdkEnd].

Lemma claude_run_session_witness :
  snd (claude_run (mkFS false [] false) "hi" (Some "s0") None claude_script_example) =
    Resolved (mkQueryResult (Some "s1") (Some "u1") false) /\
  (newSessionId (mkQueryResult (Some "s1") (Some "u1") false) =
     last_init None claude_script_example /\
   lastAssistantUuid (mkQueryResult (Some "s1") (Some "u1") false) =
     last_uuid None claude_script_example).
Proof.
  assert (H : snd (claude_run (mkFS false [] false) "hi" (Some "s0") None
                              claude_script_example) =
              Resolved (mkQueryResult (Some "s1") (Some "u1") false)) by reflexivity.
  split; [exact H |].
  exact (claude_run_session _ _ _ _ _ _ H).
Defined.

(** ** The resume point across invocations *)

Lemma resume_events_writes : forall outs t,
  resume_events (map AWrite outs ++ t) = resume_events t.
Proof. induction outs; simpl; auto. Qed.

Lemma resume_events_loop_head : forall W run wait fuel (w : W) p sid resumeAt,
  resume_events (query_loop run wait fuel w p sid resumeAt) = [] \/
  exists tl, resume_events (query_loop run wait fuel w p sid resumeAt) = RCall resumeAt :: tl.
Proof.
  intros. destruct fuel as [|fuel]; [now left | right].
  destruct (query_loop_first W run wait fuel w p sid resumeAt) as [rest ->].
  simpl. eexists; reflexivity.
Qed.

(** For any two consecutive driver invocations of the loop, the later one
    resumes at the last assistant message uuid returned by the earlier one
    when that uuid is present and non-empty, and otherwise at the earlier
    one's resume point unchanged. *)
Theorem resume_at_round_trip :
  forall W run wait fuel (w : W) p sid resumeAt pre r1 q r2 post,
    resume_events (query_loop run wait fuel w p sid resumeAt) =
      pre ++ RCall r1 :: RRet q :: RCall r2 :: post ->
    r2 = if truthy (lastAssistantUuid q) then lastAssistantUuid q else r1.
Proof.
  intros W run wait fuel.
  induction fuel as [|fuel IH]; intros w p sid ra pre r1 q r2 post H.
  - simpl in H. destruct pre; discriminate.
  - simpl in H. destruct (run w p sid ra) as [[w1 outs] oc].
    simpl in H. rewrite resume_events_writes in H.
    destruct oc as [q0 | m |].
    + simpl in H.
      destruct (closedDuringQuery q0).
      * destruct pre as [|x [|y pre]]; simpl in H; try discriminate.
        injection H as _ H. destruct pre; discriminate.
      * simpl in H. destruct (wait w1) as [w2 [[m|]|]].
        -- destruct pre as [|x [|y pre]]; simpl in H.
           ++ injection H as <- <- H.
              destruct (resume_events_loop_head W run wait fuel w2 m
                          (if truthy (newSessionId q0) then newSessionId q0 else sid)
                          (if truthy (lastAssistantUuid q0) then lastAssistantUuid q0
                           else ra)) as [E | [tl E]];
                rewrite E in H; [discriminate | injection H as <- _; reflexivity].
           ++ discriminate.
           ++ injection H as _ _ H. eapply IH; exact H.
        -- destruct pre as [|x [|y pre]]; simpl in H; try discriminate.
           injection H as _ _ H. destruct pre; discriminate.
        -- destruct pre as [|x [|y pre]]; simpl in H; try discriminate.
           injection H as _ _ H. destruct pre; discriminate.
    + simpl in H. destruct pre as [|x pre]; simpl in H; try discriminate.
      injection H as _ H. destruct pre; discriminate.
    + simpl in H. destruct pre as [|x pre]; simpl in H; try discriminate.
      injection H as _ H. destruct pre; discriminate.
Qed.

Definition two_claude_turns : World :=
  mkWorld (mkFS false [] false)
          [[CSdk (SdkAssistant (Some "u1")); CSdkEnd]; [CSdkEnd]] []
          [[WMessage "next"]].

Lemma resume_at_round_trip_witness :
  resume_events (query_loop (driver_run Claude) world_wait 2 two_claude_turns
                            "hello" None None) =
    [] ++ RCall None :: RRet (mkQueryResult None (Some "u1") false) ::
    RCall (Some "u1") :: [RRet (mkQueryResult None None false)] /\
  Some "u1" =
    (if truthy (lastAssistantUuid (mkQueryResult None (Some "u1") false))
     then lastAssistantUuid (mkQueryResult None (Some "u1") false) else None).
Proof.
  assert (H : resume_events (query_loop (driver_run Claude) world_wait 2 two_claude_turns
                                        "hello" None None) =
              [] ++ RCall None :: RRet (mkQueryResult None (Some "u1") false) ::
              RCall (Some "u1") :: [RRet (mkQueryResult None None false)])
    by reflexivity.
  split; [exact H |].
  exact (resume_at_round_trip World (driver_run Claude) world_wait 2 two_claude_turns
           "hello" None None [] None (mkQueryResult None (Some "u1") false) (Some "u1")
           [RRet (mkQueryResult None None false)] H).
Defined.

(** ** The OpenCode invocation *)

Lemma opencode_loop_shape : forall sid evs so se,
  match opencode_loop sid so se evs with
  | (outs, Some q) =>
      length outs = 1 /\ closedDuringQuery q = false /\ lastAssistantUuid q = None /\
      (newSessionId q = sid \/ newSessionId q = None)
  | (outs, None) => outs = []
  end.
Proof.
  intros sid evs. induction evs as [|e evs IH]; intros so se; [reflexivity |].
  destruct e as [d | d | code | msg]; cbn [opencode_loop]; try apply IH.
  - split; [reflexivity | split; [reflexivity | split; [reflexivity | left; reflexivity]]].
  - split; [reflexivity | split; [reflexivity | split; [reflexivity | right; reflexivity]]].
Qed.

Lemma query_loop_calls_fixed :
  forall W (run : W -> string -> option string -> option string
                  -> W * list Output * Outcome) wait,
  (forall w p sid ra w' outs q, run w p sid ra = (w', outs, Resolved q) ->
     lastAssistantUuid q = None /\ (newSessionId q = sid \/ newSessionId q = None)) ->
  forall fuel w p sid ra p' s r,
    In (ACall p' s r) (query_loop run wait fuel w p sid ra) -> s = sid /\ r = ra.
Proof.
  intros W run wait Hrun fuel. induction fuel as [|fuel IH];
    intros w p sid ra p' s r H; [destruct H |].
  cbn [query_loop] in H. destruct (run w p sid ra) as [[w1 outs] oc] eqn:Er.
  destruct H as [H | H]; [injection H as _ <- <-; split; reflexivity |].
  apply in_app_or in H as [H | H].
  { apply in_map_iff in H as (o & Ho & _). discriminate. }
  destruct oc as [q | m |].
  - destruct (Hrun _ _ _ _ _ _ _ Er) as [Hu Hn].
    assert (Hs : (if truthy (newSessionId q) then newSessionId q else sid) = sid)
      by (destruct Hn as [E | E]; rewrite E; [destruct (truthy sid); reflexivity |
                                              reflexivity]).
    assert (Hr : (if truthy (lastAssistantUuid q) then lastAssistantUuid q else ra) = ra)
      by (rewrite Hu; reflexivity).
    destruct H as [H | H]; [discriminate |].
    destruct (closedDuringQuery q).
    + destruct H as [H | []]; discriminate.
    + destruct H as [H | [H | H]]; try discriminate.
      rewrite Hs, Hr in H.
      destruct (wait w1) as [w2 [[m|]|]].
      * exact (IH w2 m sid ra p' s r H).
      * destruct H as [H | []]; discriminate.
      * destruct H.
  - destruct H as [H | [H | []]]; discriminate.
  - destruct H.
Qed.

(** With the OpenCode backend every driver invocation of a run receives
    the session id of the initialization document and no resume point:
    the session id OpenCode returns is never adopted. *)
Theorem opencode_session_fixed : forall fuel parse stdin w0 ci p s r,
  parse stdin = ParseOk ci -> select_driver ci = OpenCode ->
  In (ACall p s r) (main fuel parse stdin w0) -> s = sessionId ci /\ r = None.
Proof.
  intros fuel parse stdin w0 ci p s r Hp Hk. unfold main, main_startup. rewrite Hp.
  destruct (initial_prompt ci _) as [p0 fs3]. rewrite Hk.
  apply query_loop_calls_fixed.
  intros w p1 sid ra w' outs q. unfold driver_run, opencode_invoke.
  destruct (hd (Spawned []) (w_opencode w)) as [m | evs];
    [intros H; injection H as _ _ Hq; discriminate |].
  unfold opencode_run.
  pose proof (opencode_loop_shape sid evs EmptyString EmptyString) as Hs.
  destruct (opencode_loop sid EmptyString EmptyString evs)
    as [outs0 [q0|]]; intros H; injection H as _ _ Hq; [| discriminate].
  destruct Hs as (_ & _ & Hu & Hn). subst. split; assumption.
Qed.

Definition ci_opencode_s0 : ContainerInput :=
  mkContainerInput "hello" (Some "s0") "main" "chat@g.us" true None None
                   (Some "opencode") [].

Definition two_opencode_runs : World :=
  mkWorld (mkFS false [] false) []
          [Spawned [PStdout "one"; PClose (Some 0%Z)];
           Spawned [PStdout "two"; PClose (Some 0%Z)]]
          [[WMessage "next"]].

Lemma opencode_session_fixed_witness :
  (ParseOk ci_opencode_s0 = ParseOk ci_opencode_s0 /\
   select_driver ci_opencode_s0 = OpenCode /\
   In (ACall "next" (Some "s0") None)
      (main 2 (fun _ => ParseOk ci_opencode_s0) "{}" two_opencode_runs)) /\
  (Some "s0" = sessionId ci_opencode_s0 /\ @None string = None).
Proof.
  assert (Hk : select_driver ci_opencode_s0 = OpenCode) by reflexivity.
  assert (Hin : In (ACall "next" (Some "s0") None)
                   (main 2 (fun _ => ParseOk ci_opencode_s0) "{}" two_opencode_runs)).
  { vm_compute. repeat (first [left; reflexivity | right]). }
  split; [split; [reflexivity | split; [exact Hk | exact Hin]] |].
  exact (opencode_session_fixed 2 (fun _ => ParseOk ci_opencode_s0) "{}" two_opencode_runs
           ci_opencode_s0 "next" (Some "s0") None eq_refl Hk Hin).
Defined.

(** ** The records of an OpenCode process *)


